(** * travis-worker: the worker daemon's entry point (cmd/travis-worker/main.go)

    A shallow embedding of [ProviderConfigFromEnviron] and [runWorker], of the
    goroutines [runWorker] starts, and of the job queue and processor pool it
    drives, with the properties the design document states about them. *)

From stdpp Require Import gmap strings list fin_maps.
From Stdlib Require Import Ascii ZArith Lia.

Open Scope string_scope.
Open Scope list_scope.

(** ** Go's [strings] package, as far as main.go uses it

    A Go string is a sequence of bytes, as a Rocq [string] is. *)
Module GoStrings.

(** [strings.HasPrefix(s, prefix)]:
    [len(s) >= len(prefix) && s[:len(prefix)] == prefix]. *)
Fixpoint HasPrefix (s prefix : string) : bool :=
  match prefix with
  | EmptyString => true
  | String p prefix' =>
      match s with
      | EmptyString => false
      | String c s' => if Ascii.eqb c p then HasPrefix s' prefix' else false
      end
  end.

(** [s[n:]] for [n <= len(s)]. *)
Fixpoint slice_from (n : nat) (s : string) : string :=
  match n, s with
  | S n', String _ s' => slice_from n' s'
  | _, _ => s
  end.

(** [strings.TrimPrefix(s, prefix)]: [s] without the leading [prefix], and
    [s] itself when it does not start with [prefix]. *)
Definition TrimPrefix (s prefix : string) : string :=
  if HasPrefix s prefix then slice_from (String.length prefix) s else s.

(** [strings.Index(s, sep)] for a one-byte separator, as the pair of what
    lies before and after the first occurrence. *)
Fixpoint cut (sep : ascii) (s : string) : option (string * string) :=
  match s with
  | EmptyString => None
  | String c s' =>
      if Ascii.eqb c sep then Some (EmptyString, s')
      else match cut sep s' with
           | Some (a, b) => Some (String c a, b)
           | None => None
           end
  end.

(** [strings.SplitN(s, sep, 2)] for a one-byte separator: at most two
    substrings, the second being the unsplit remainder; a string without
    the separator comes back alone. *)
Definition SplitN2 (s : string) (sep : ascii) : list string :=
  match cut sep s with
  | Some (a, b) => [a; b]
  | None => [s]
  end.

(** [strings.ToUpper] and [strings.ToLower] on the ASCII letters; on
    ASCII-only strings Go's functions are exactly these byte maps. *)
Definition upper_byte (c : ascii) : ascii :=
  let n := nat_of_ascii c in
  if (97 <=? n)%nat && (n <=? 122)%nat then ascii_of_nat (n - 32) else c.

Definition lower_byte (c : ascii) : ascii :=
  let n := nat_of_ascii c in
  if (65 <=? n)%nat && (n <=? 90)%nat then ascii_of_nat (n + 32) else c.

Fixpoint map_bytes (f : ascii → ascii) (s : string) : string :=
  match s with
  | EmptyString => EmptyString
  | String c s' => String (f c) (map_bytes f s')
  end.

Definition ascii_ToUpper : string → string := map_bytes upper_byte.
Definition ascii_ToLower : string → string := map_bytes lower_byte.

End GoStrings.

(** ** ProviderConfigFromEnviron (main.go, lines 140-155) *)
Module ProviderConfig.
Import GoStrings.

Section WithCaseMaps.
(** Go's [strings.ToUpper] and [strings.ToLower] map Unicode code points;
    the function is embedded over whatever the two maps are. *)
Variables ToUpper ToLower : string → string.

(** [prefix := "TRAVIS_WORKER_" + strings.ToUpper(providerName) + "_"] *)
Definition prefix_of (providerName : string) : string :=
  "TRAVIS_WORKER_" +:+ ToUpper providerName +:+ "_".

(** The body of the [for _, e := range os.Environ()] loop. Indexing
    [pair] out of range panics: the result is [None]. *)
Definition loop_body (prefix : string) (config : gmap string string)
    (e : string) : option (gmap string string) :=
  if HasPrefix e prefix then
    let pair := SplitN2 e "="%char in
    p0 ← pair !! 0%nat;
    let key := ToLower (TrimPrefix p0 prefix) in
    p1 ← pair !! 1%nat;
    Some (<[key := p1]> config)
  else Some config.

Fixpoint range_loop (prefix : string) (config : gmap string string)
    (environ : list string) : option (gmap string string) :=
  match environ with
  | [] => Some config
  | e :: rest =>
      config' ← loop_body prefix config e;
      range_loop prefix config' rest
  end.

(** [environ] is what [os.Environ()] returns: the "NAME=value" strings of
    the process environment, in order. *)
Definition ProviderConfigFromEnviron (environ : list string)
    (providerName : string) : option (gmap string string) :=
  let prefix := prefix_of providerName in
  range_loop prefix ∅ environ.

(** *** The vocabulary of the specification *)

(** The environment variables whose string begins with the prefix. *)
Definition matching (prefix : string) (environ : list string) : list string :=
  List.filter (λ e, HasPrefix e prefix) environ.

(** The variable name: what stands before the first "=". *)
Definition var_name (e : string) : string :=
  match cut "="%char e with Some (a, _) => a | None => e end.

(** Everything after the first "=". *)
Definition var_value (e : string) : string :=
  match cut "="%char e with Some (_, b) => b | None => EmptyString end.

Definition has_equals (e : string) : bool :=
  match cut "="%char e with Some _ => true | None => false end.

(** The key of a variable: its name with the prefix removed, lower-cased. *)
Definition entry_key (prefix e : string) : string :=
  ToLower (TrimPrefix (var_name e) prefix).

(** The claim of the design document, word for word: one entry per
    matching variable, keyed and valued as said, and nothing else. *)
Definition one_entry_per_variable (prefix : string) (environ : list string)
    (m : gmap string string) : Prop :=
  size m = length (matching prefix environ)
  ∧ (∀ e, e ∈ matching prefix environ →
          m !! entry_key prefix e = Some (var_value e))
  ∧ (∀ k v, m !! k = Some v →
          ∃ e, e ∈ matching prefix environ
               ∧ entry_key prefix e = k ∧ var_value e = v).

(** What the map assignment in the loop gives instead when keys repeat:
    the last matching variable with a given key decides its value. *)
Definition last_wins (prefix : string) (environ : list string)
    (m : gmap string string) : Prop :=
  ∀ k v, m !! k = Some v ↔
    ∃ (before : list string) (e : string) (after : list string),
      matching prefix environ = (before ++ e :: after)%list
      ∧ entry_key prefix e = k ∧ var_value e = v
      ∧ ∀ e', e' ∈ after → entry_key prefix e' ≠ k.

(** The map assignments of the loop, over the matching variables. *)
Definition assign_all (prefix : string) (config : gmap string string)
    (es : list string) : gmap string string :=
  foldl (λ m e, <[entry_key prefix e := var_value e]> m) config es.

End WithCaseMaps.
End ProviderConfig.



(** ** runWorker (main.go, lines 39-138) *)
Module Worker.
Import GoStrings ProviderConfig.

(** Go's [error] values and the collaborators' handles are opaque here. *)
Definition Error := string.
Inductive SentryHook := TheSentryHook.
Inductive Connection := TheConnection.
Inductive Provider := TheProvider.

(** [syscall.Signal] is an integer; the two values are those of Linux. *)
Definition Signal := Z.
Definition SIGINT : Signal := 2%Z.
Definition SIGTERM : Signal := 15%Z.

(** The fields of [worker.Config] that runWorker reads. *)
Record Config := {
  SentryDSN : string;
  LibratoEmail : string;
  LibratoToken : string;
  LibratoSource : string;
  AmqpURI : string;
  ProviderName : string;
  Hostname : string;
  HardTimeout : Z;
  SkipShutdownOnLogTimeout : bool;
  PoolSize : Z;
  QueueName : string
}.

Inductive Level := PanicLevel | FatalLevel | ErrorLevel | InfoLevel | DebugLevel.

(** The goroutines runWorker starts with [go]. *)
Inductive Goroutine :=
| PprofServer (addr : string)
| LibratoReporter (email token source : string)
| MetricsLogReporter
| AmqpCloseWatcher
| CommandDispatcherRun
| SignalHandler.

(** What runWorker and its goroutines do to their collaborators, in order.
    [Log lvl fields msg] is a call of the context's logger with the named
    fields attached. *)
Inductive Event :=
| WithCancel
| SetFormatter
| Go (g : Goroutine)
| SetLevel (lvl : Level)
| Log (lvl : Level) (fields : list string) (msg : string)
| NewSentryHook (dsn : string) (levels : list Level)
| AddHook (hook : option SentryHook)
| AmqpDial (uri : string)
| NewBuildScriptGenerator
| NewProvider (name : string) (cfg : gmap string string)
| NewCommandDispatcher
| NewProcessorPool (hostname : string) (hardTimeout : Z)
| SetSkipShutdownOnLogTimeout (skip : bool)
| SignalNotify (sigs : list Signal)
| PoolRun (poolSize : Z) (queueName : string)
| PoolRunReturned
| PoolGracefulShutdown
| Cancel
| AmqpConnClose
| RunWorkerReturns
| RunWorkerPanics.

#[global] Instance Level_eq_dec : EqDecision Level.
Proof. solve_decision. Defined.
#[global] Instance SentryHook_eq_dec : EqDecision SentryHook.
Proof. solve_decision. Defined.
#[global] Instance Goroutine_eq_dec : EqDecision Goroutine.
Proof. solve_decision. Defined.
#[global] Instance Event_eq_dec : EqDecision Event.
Proof. solve_decision. Defined.

(** Everything runWorker takes from outside: the command line, the
    environment, and what each fallible collaborator answers. A Go function
    returning [(T, error)] answers a pair, either half of which may be nil. *)
Record Externals := {
  cli_pprof_port : string;
  cli_debug : bool;
  cli_config : Config;
  sentry_hook_result : option SentryHook * option Error;
  amqp_dial_result : option Connection * option Error;
  os_environ : list string;
  new_provider_result : option Provider * option Error;
  pool_run_returns : bool;
  amqp_close_result : option Error
}.

(** *** Sequencing with early exit

    A statement sequence emits events and then goes on with a value, leaves
    the function by [return], panics, or blocks for good in a call. *)
Inductive Flow (A : Type) :=
| Next (a : A)
| Returned
| Panicked
| Blocked.
Arguments Next {A} a.
Arguments Returned {A}.
Arguments Panicked {A}.
Arguments Blocked {A}.

Definition Prog (A : Type) : Type := list Event * Flow A.

#[global] Instance Prog_ret : MRet Prog := λ A a, ([], Next a).

#[global] Instance Prog_bind : MBind Prog := λ A B k p,
  match p with
  | (t, Next a) => let '(t', f) := k a in (t ++ t', f)
  | (t, Returned) => (t, Returned)
  | (t, Panicked) => (t, Panicked)
  | (t, Blocked) => (t, Blocked)
  end.

Definition emit (e : Event) : Prog unit := ([e], Next tt).
Definition return_ {A} : Prog A := ([], Returned).
Definition panic {A} : Prog A := ([], Panicked).
Definition block {A} : Prog A := ([], Blocked).
Definition when (b : bool) (p : Prog unit) : Prog unit :=
  if b then p else mret tt.

Definition nonempty (s : string) : bool := negb (String.eqb s EmptyString).
Definition not_nil {A} (o : option A) : bool :=
  match o with Some _ => true | None => false end.

Section WithCaseMaps.
Variables ToUpper ToLower : string → string.

(** The statements of runWorker after [defer logger.Info("worker finished")]. *)
Definition runWorker_body (w : Externals) : Prog unit :=
  let config := cli_config w in
  emit (Log DebugLevel ["config"] "read config");;
  when (nonempty (SentryDSN config))
    (let '(sentryHook, err) := sentry_hook_result w in
     emit (NewSentryHook (SentryDSN config) [PanicLevel; FatalLevel; ErrorLevel]);;
     when (not_nil err)
       (emit (Log ErrorLevel ["err"] "couldn't create sentry hook"));;
     emit (AddHook sentryHook));;
  (if nonempty (LibratoEmail config) && nonempty (LibratoToken config)
      && nonempty (LibratoSource config)
   then
     emit (Log InfoLevel [] "starting librato metrics reporter");;
     emit (Go (LibratoReporter (LibratoEmail config) (LibratoToken config)
                 (LibratoSource config)))
   else
     emit (Log InfoLevel [] "starting logger metrics reporter");;
     emit (Go MetricsLogReporter));;
  emit (AmqpDial (AmqpURI config));;
  let '(amqpConn, err) := amqp_dial_result w in
  when (not_nil err)
    (emit (Log ErrorLevel ["err"] "couldn't connect to AMQP");;
     return_);;
  emit (Go AmqpCloseWatcher);;
  emit (Log DebugLevel [] "connected to AMQP");;
  emit NewBuildScriptGenerator;;
  cfg ← match ProviderConfigFromEnviron ToUpper ToLower (os_environ w)
                (ProviderName config) with
        | Some cfg => mret cfg
        | None => panic
        end;
  emit (NewProvider (ProviderName config) cfg);;
  let '(provider, err) := new_provider_result w in
  when (not_nil err)
    (emit (Log ErrorLevel ["err"] "couldn't create backend provider");;
     return_);;
  emit (Log DebugLevel ["provider"] "built provider");;
  emit NewCommandDispatcher;;
  emit (Go CommandDispatcherRun);;
  emit (NewProcessorPool (Hostname config) (HardTimeout config));;
  emit (SetSkipShutdownOnLogTimeout (SkipShutdownOnLogTimeout config));;
  emit (SignalNotify [SIGTERM; SIGINT]);;
  emit (Go SignalHandler);;
  emit (PoolRun (PoolSize config) (QueueName config));;
  (if pool_run_returns w then emit PoolRunReturned else block);;
  emit AmqpConnClose;;
  when (not_nil (amqp_close_result w))
    (emit (Log ErrorLevel ["err"] "couldn't close AMQP connection cleanly");;
     return_).

(** The whole function: the statements up to the [defer], the body, and the
    deferred call, which runs when the body returns or panics. *)
Definition runWorker_prog (w : Externals) : Prog unit :=
  emit WithCancel;;
  emit SetFormatter;;
  when (nonempty (cli_pprof_port w))
    (emit (Go (PprofServer ("localhost:" +:+ cli_pprof_port w))));;
  when (cli_debug w) (emit (SetLevel DebugLevel));;
  emit (Log InfoLevel [] "worker started");;
  match runWorker_body w with
  | (t, Next _) | (t, Returned) =>
      (t ++ [Log InfoLevel [] "worker finished"; RunWorkerReturns], Returned)
  | (t, Panicked) =>
      (t ++ [Log InfoLevel [] "worker finished"; RunWorkerPanics], Panicked)
  | (t, Blocked) => (t, Blocked)
  end.

(** The trace of the goroutine that runs runWorker. *)
Definition runWorker (w : Externals) : list Event := fst (runWorker_prog w).

End WithCaseMaps.

(** *** The goroutines started by runWorker *)

(** What a receive [v, ok := <-ch] yields. *)
Inductive Recv (A : Type) :=
| Received (v : A)
| ChanClosed.
Arguments Received {A} v.
Arguments ChanClosed {A}.

(** Lines 86-95: [err, ok := <-errChan; if ok { ...; cancel() }]. *)
Definition amqpCloseWatcher (r : Recv Error) : list Event :=
  match r with
  | Received err =>
      [Log ErrorLevel ["err"] "amqp connection errored, terminating"; Cancel]
  | ChanClosed => []
  end.

(** Lines 120-129: [sig := <-signalChan; if sig == syscall.SIGINT ...]. *)
Definition signalHandler (sig : Signal) : list Event :=
  if decide (sig = SIGINT) then
    [Log InfoLevel [] "SIGTERM received, starting graceful shutdown";
     PoolGracefulShutdown]
  else
    [Log InfoLevel [] "SIGINT received, shutting down immediately"; Cancel].

End Worker.

(** ** The signal channel and the two watching goroutines at run time

    Lines 118-119 make [signalChan] with a buffer of one and register it for
    SIGTERM and SIGINT; the runtime then relays these signals to it without
    blocking, dropping a signal the buffer has no room for. Each goroutine
    performs a single receive and ends. *)
Module Supervisor.
Import Worker.

Inductive GoroutineState := Waiting | Exited.

Record State := {
  signalChan : list Signal;
  handler : GoroutineState;
  watcher : GoroutineState;
  effects : list Event
}.

(** [make(chan os.Signal, 1)] *)
Definition signalChan_capacity : nat := 1.

(** [signal.Notify(signalChan, syscall.SIGTERM, syscall.SIGINT)] *)
Definition registered : list Signal := [SIGTERM; SIGINT].

(** The state when [pool.Run] is entered: both goroutines started, nothing
    received yet. *)
Definition init : State :=
  {| signalChan := []; handler := Waiting; watcher := Waiting; effects := [] |}.

Inductive Action :=
| OsSignal (sig : Signal)
| HandlerReceives
| ConnNotifies (r : Recv Error).

(** The runtime relaying a signal to the channel. *)
Definition relay (sig : Signal) (st : State) : State :=
  if bool_decide (sig ∈ registered) then
    if (length (signalChan st) <? signalChan_capacity)%nat then
      {| signalChan := signalChan st ++ [sig]; handler := handler st;
         watcher := watcher st; effects := effects st |}
    else st
  else st.

(** The handler goroutine: blocked in [<-signalChan] until a signal is
    buffered, then it runs its body and ends. *)
Definition handler_step (st : State) : State :=
  match handler st, signalChan st with
  | Waiting, sig :: rest =>
      {| signalChan := rest; handler := Exited; watcher := watcher st;
         effects := effects st ++ signalHandler sig |}
  | _, _ => st
  end.

(** The watcher goroutine: blocked in [<-errChan] until the connection
    notifies, then it runs its body and ends. *)
Definition watcher_step (r : Recv Error) (st : State) : State :=
  match watcher st with
  | Waiting =>
      {| signalChan := signalChan st; handler := handler st; watcher := Exited;
         effects := effects st ++ amqpCloseWatcher r |}
  | Exited => st
  end.

Definition step (st : State) (a : Action) : State :=
  match a with
  | OsSignal sig => relay sig st
  | HandlerReceives => handler_step st
  | ConnNotifies r => watcher_step r st
  end.

Definition run (acts : list Action) (st : State) : State := foldl step st acts.

Definition is_signal_action (a : Action) : bool :=
  match a with
  | OsSignal _ | HandlerReceives => true
  | ConnNotifies _ => false
  end.

(** The first registered signal among the actions. *)
Fixpoint first_signal (acts : list Action) : option Signal :=
  match acts with
  | [] => None
  | OsSignal sig :: rest =>
      if bool_decide (sig ∈ registered) then Some sig else first_signal rest
  | _ :: rest => first_signal rest
  end.

(** What holds of the handler after any run of signal actions: while it
    waits, nothing has happened and the buffer holds the first signal, if
    one came; once it has ended, it has acted on the first signal. *)
Definition handler_inv (acts : list Action) (st : State) : Prop :=
  match handler st with
  | Waiting =>
      effects st = [] ∧ signalChan st = option_list (first_signal acts)
  | Exited =>
      ∃ sig, first_signal acts = Some sig ∧ effects st = signalHandler sig
  end.

End Supervisor.

(** ** The job payload and its wire format

    [Payload] and [JobPayload] are the structures the queue test builds
    (lines 167-173); the decoder belongs to the job queue, whose code is not
    part of the sources at hand. *)
Module Wire.

Record JobPayload := { ID : Z; Number : string }.
Record Payload := { Job : JobPayload }.

#[global] Instance JobPayload_eq_dec : EqDecision JobPayload.
Proof. solve_decision. Defined.
#[global] Instance Payload_eq_dec : EqDecision Payload.
Proof. solve_decision. Defined.

(** A structured document. *)
Unset Elimination Schemes.
Inductive Document :=
| DNull
| DBool (b : bool)
| DInt (n : Z)
| DString (s : string)
| DArray (items : list Document)
| DObject (members : list (string * Document)).
Set Elimination Schemes.

Inductive Token :=
| TLBrace | TRBrace | TLBracket | TRBracket | TColon | TComma
| TString (s : string)
| TInt (n : Z)
| TWord (s : string).

(** Where the scanner stands: between tokens, inside a string literal
    (after a backslash or not), inside a number, inside a bare word. The
    text gathered so far is kept reversed. *)
Inductive Scan :=
| Between
| InString (acc : string)
| InEscape (acc : string)
| InNumber (negative : bool) (digits : option Z)
| InWord (acc : string).

(** The double quote that delimits string literals. *)
Definition dquote : ascii := "034"%char.

(** [s] written as a string literal (for text without quotes or
    backslashes). *)
Definition quoted (s : string) : string :=
  String dquote (s +:+ String dquote EmptyString).

Fixpoint rev_string (s acc : string) : string :=
  match s with
  | EmptyString => acc
  | String c s' => rev_string s' (String c acc)
  end.

Definition is_space (c : ascii) : bool :=
  let n := nat_of_ascii c in
  (n =? 32)%nat || (n =? 9)%nat || (n =? 10)%nat || (n =? 13)%nat.

Definition digit_of (c : ascii) : option Z :=
  let n := nat_of_ascii c in
  if (48 <=? n)%nat && (n <=? 57)%nat then Some (Z.of_nat (n - 48)) else None.

Definition is_letter (c : ascii) : bool :=
  let n := nat_of_ascii c in (97 <=? n)%nat && (n <=? 122)%nat.

Definition punctuation (c : ascii) : option Token :=
  if Ascii.eqb c "{" then Some TLBrace
  else if Ascii.eqb c "}" then Some TRBrace
  else if Ascii.eqb c "[" then Some TLBracket
  else if Ascii.eqb c "]" then Some TRBracket
  else if Ascii.eqb c ":" then Some TColon
  else if Ascii.eqb c "," then Some TComma
  else None.

Definition number_token (negative : bool) (digits : Z) : Token :=
  TInt (if negative then (- digits)%Z else digits).

(** The token a finished number or word leaves behind. *)
Definition flush (st : Scan) : option (list Token) :=
  match st with
  | Between => Some []
  | InNumber negative (Some digits) => Some [number_token negative digits]
  | InWord acc => Some [TWord (rev_string acc EmptyString)]
  | InNumber _ None | InString _ | InEscape _ => None
  end.

(** One character read between tokens: the tokens it completes and where
    the scanner stands next. *)
Definition scan_between (c : ascii) : option (list Token * Scan) :=
  if is_space c then Some ([], Between)
  else if Ascii.eqb c dquote then Some ([], InString EmptyString)
  else if Ascii.eqb c "-" then Some ([], InNumber true None)
  else if is_letter c then Some ([], InWord (String c EmptyString))
  else match digit_of c, punctuation c with
       | Some d, _ => Some ([], InNumber false (Some d))
       | None, Some t => Some ([t], Between)
       | None, None => None
       end.

Definition scan_char (st : Scan) (c : ascii) : option (list Token * Scan) :=
  match st with
  | Between => scan_between c
  | InString acc =>
      if Ascii.eqb c dquote then Some ([TString (rev_string acc EmptyString)], Between)
      else if Ascii.eqb c "\" then Some ([], InEscape acc)
      else Some ([], InString (String c acc))
  | InEscape acc =>
      if Ascii.eqb c dquote || Ascii.eqb c "\" || Ascii.eqb c "/"
      then Some ([], InString (String c acc))
      else None
  | InNumber negative digits =>
      match digit_of c with
      | Some d =>
          Some ([], InNumber negative (Some (10 * default 0 digits + d)%Z))
      | None =>
          done ← flush st;
          '(toks, st') ← scan_between c;
          Some (done ++ toks, st')
      end
  | InWord acc =>
      if is_letter c then Some ([], InWord (String c acc))
      else
        done ← flush st;
        '(toks, st') ← scan_between c;
        Some (done ++ toks, st')
  end.

(** The scanner; [None] on text that is no sequence of tokens. *)
Fixpoint scan (s : string) (st : Scan) : option (list Token) :=
  match s with
  | EmptyString => flush st
  | String c s' =>
      '(toks, st') ← scan_char st c;
      rest ← scan s' st';
      Some (toks ++ rest)
  end.

(** The parser, by recursive descent; [fuel] bounds the nesting and the
    number of members read, and the number of tokens is always enough. *)
Fixpoint parse_value (fuel : nat) (toks : list Token)
    : option (Document * list Token) :=
  match fuel with
  | O => None
  | S fuel' =>
      match toks with
      | TString s :: rest => Some (DString s, rest)
      | TInt n :: rest => Some (DInt n, rest)
      | TWord w :: rest =>
          if String.eqb w "true" then Some (DBool true, rest)
          else if String.eqb w "false" then Some (DBool false, rest)
          else if String.eqb w "null" then Some (DNull, rest)
          else None
      | TLBrace :: TRBrace :: rest => Some (DObject [], rest)
      | TLBrace :: rest => parse_members fuel' rest []
      | TLBracket :: TRBracket :: rest => Some (DArray [], rest)
      | TLBracket :: rest => parse_items fuel' rest []
      | _ => None
      end
  end
with parse_members (fuel : nat) (toks : list Token)
    (acc : list (string * Document)) : option (Document * list Token) :=
  match fuel with
  | O => None
  | S fuel' =>
      match toks with
      | TString k :: TColon :: rest =>
          '(v, rest') ← parse_value fuel' rest;
          match rest' with
          | TComma :: rest'' => parse_members fuel' rest'' ((k, v) :: acc)
          | TRBrace :: rest'' => Some (DObject (rev ((k, v) :: acc)), rest'')
          | _ => None
          end
      | _ => None
      end
  end
with parse_items (fuel : nat) (toks : list Token) (acc : list Document)
    : option (Document * list Token) :=
  match fuel with
  | O => None
  | S fuel' =>
      '(v, rest') ← parse_value fuel' toks;
      match rest' with
      | TComma :: rest'' => parse_items fuel' rest'' (v :: acc)
      | TRBracket :: rest'' => Some (DArray (rev (v :: acc)), rest'')
      | _ => None
      end
  end.

Definition parse (body : string) : option Document :=
  toks ← scan body Between;
  '(doc, rest) ← parse_value (S (length toks)) toks;
  match rest with [] => Some doc | _ => None end.

(** The member of an object with the given name; the last one if the name
    is repeated. *)
Fixpoint member (name : string) (members : list (string * Document))
    : option Document :=
  match members with
  | [] => None
  | (k, v) :: rest =>
      match member name rest with
      | Some v' => Some v'
      | None => if String.eqb k name then Some v else None
      end
  end.

(** Modelled from the spec: the job queue's payload decoder, which is not
    among the sources. The payload is a structured document with a nested
    [job] object containing at least [id] (integer) and [number] (string);
    unrecognized fields are ignored; a missing [job.id] or [job.number], or a
    non-object [job], is a decode failure, and decoding never yields a partly
    filled payload. *)
Definition decodePayload (body : string) : option Payload :=
  doc ← parse body;
  match doc with
  | DObject members =>
      job ← member "job" members;
      match job with
      | DObject fields =>
          id ← member "id" fields;
          number ← member "number" fields;
          match id, number with
          | DInt n, DString s => Some {| Job := {| ID := n; Number := s |} |}
          | _, _ => None
          end
      | _ => None
      end
  | _ => None
  end.

End Wire.

(** ** The message broker and the job queue

    Neither is among the sources: the queue test (lines 182-194) shows how
    they are called, the design document says what they do. *)
Module JobQueue.
Import Wire.

(** A delivery: the opaque body and the handle under which it is
    acknowledged or rejected. *)
Record Delivery := { tag : nat; body : string }.

(** Modelled from the spec: the in-memory message broker of the queue test
    ([NewTestMessageBroker]), which is not among the sources. It keeps what
    was published to each declared queue, in order, and whether it has been
    closed. *)
Record Broker := { queues : gmap string (list string); closed : bool }.

Definition NewTestMessageBroker : Broker := {| queues := ∅; closed := false |}.

(** Modelled from the spec: [declareQueue(name)] of the broker contract. *)
Definition DeclareQueue (name : string) (mb : Broker) : Broker :=
  match queues mb !! name with
  | Some _ => mb
  | None => {| queues := <[name := []]> (queues mb); closed := closed mb |}
  end.

(** Modelled from the spec: [publish(exchange, routingKey, payload)] of the
    broker contract; the message goes to the declared queue the routing key
    names. *)
Definition Publish (exchange routingKey msgType payload : string) (mb : Broker)
    : Broker :=
  match queues mb !! routingKey with
  | Some msgs =>
      {| queues := <[routingKey := msgs ++ [payload]]> (queues mb);
         closed := closed mb |}
  | None => mb
  end.

(** Modelled from the spec: [close()] of the broker contract. *)
Definition Close (mb : Broker) : Broker :=
  {| queues := queues mb; closed := true |}.

(** A subscription is a lazy, blocking sequence of deliveries: what it
    yields, and whether it then ends or blocks for more. *)
Record Subscription := { deliveries : list Delivery; ended : bool }.

(** Modelled from the spec: [subscribe(queueName, prefetchCount)] of the
    broker contract; the sequence ends when the connection has been
    closed. *)
Definition BrokerSubscribe (queueName : string) (prefetch : nat) (mb : Broker)
    : Subscription :=
  {| deliveries :=
       imap (λ i b, {| tag := S i; body := b |})
            (default [] (queues mb !! queueName));
     ended := closed mb |}.

(** The terminal outcomes of a processor. *)
Inductive Outcome :=
| Success
| Failure
| TimedOut
| Cancelled
| InfrastructureError
| UnexpectedError.

Inductive Settlement := Ack | RejectRequeue | RejectDrop.

(** Modelled from the spec: the acknowledgment policy of the job queue. Ack
    after success or expected failure, and after a timeout or cancellation
    (the job did run); reject with requeue on an infrastructure error;
    reject without requeue on an unexpected processor error. *)
Definition settlement_of (o : Outcome) : Settlement :=
  match o with
  | Success | Failure | TimedOut | Cancelled => Ack
  | InfrastructureError => RejectRequeue
  | UnexpectedError => RejectDrop
  end.

Section WithObservations.
(** What a processor is seen doing while it runs. *)
Context {Obs : Type}.

(** The capability a processor factory returns ([JobPayloadProcessor]):
    processing a payload, seen from outside, is what the processor does and
    the outcome it terminates with. *)
Definition JobPayloadProcessor : Type := Payload → list Obs * Outcome.

Inductive QEvent :=
| Bound (tg : nat) (payload : Payload)
| Observed (tg : nat) (o : Obs)
| ProcessorTerminated (tg : nat) (outcome : Outcome)
| Settled (tg : nat) (s : Settlement).

Definition event_tag (e : QEvent) : nat :=
  match e with
  | Bound tg _ | Observed tg _ | ProcessorTerminated tg _ | Settled tg _ => tg
  end.

Definition is_settled (e : QEvent) : bool :=
  match e with Settled _ _ => true | _ => false end.

(** Modelled from the spec: what the job queue does with one delivery.
    Decode the payload; on failure reject without requeue; on success obtain
    a processor from the factory, let it process the payload to its terminal
    outcome, and then ack or reject according to the outcome. *)
Definition handle (processorFactory : unit → JobPayloadProcessor)
    (d : Delivery) : list QEvent :=
  match decodePayload (body d) with
  | None => [Settled (tag d) RejectDrop]
  | Some payload =>
      let '(seen, outcome) := processorFactory tt payload in
      Bound (tag d) payload
        :: (Observed (tag d) <$> seen)
        ++ [ProcessorTerminated (tag d) outcome;
            Settled (tag d) (settlement_of outcome)]
  end.

(** Deliveries are dispatched asynchronously: the events of the whole are
    those of the deliveries merged in any order that keeps the order within
    each delivery. *)
Inductive merges {A : Type} : list (list A) → list A → Prop :=
| merges_done threads :
    Forall (λ l, l = []) threads → merges threads []
| merges_step threads i x l t :
    threads !! i = Some (x :: l) →
    merges (<[i := l]> threads) t →
    merges threads (x :: t).

(** The events of one delivery within a trace. *)
Definition lifetime (tg : nat) (t : list QEvent) : list QEvent :=
  filter (λ e, event_tag e = tg) t.

(** What a call of the queue's subscribe amounts to: one thread of events
    per delivery consumed, and whether the call returns. *)
Record Subscribed := { threads : list (list QEvent); returns : bool }.

(** The deliveries received while the cancellation signal is not triggered;
    [cancelled_after] is the number of deliveries received before the signal
    triggers, if it ever does. *)
Definition consumed (cancelled_after : option nat) (sub : Subscription)
    : list Delivery :=
  match cancelled_after with
  | None => deliveries sub
  | Some n => take n (deliveries sub)
  end.

(** Modelled from the spec: [subscribe(cancellationSignal,
    processorFactory)] of the job queue. Each delivery received while the
    signal is not triggered is handled; the call returns when the sequence
    ends or the signal triggers. *)
Definition Subscribe (cancelled_after : option nat)
    (processorFactory : unit → JobPayloadProcessor) (sub : Subscription)
    : Subscribed :=
  {| threads := handle processorFactory <$> consumed cancelled_after sub;
     returns := ended sub || bool_decide (is_Some cancelled_after) |}.

End WithObservations.
Arguments JobPayloadProcessor Obs : clear implicits.
Arguments QEvent Obs : clear implicits.
Arguments Subscribed Obs : clear implicits.

(** *** The queue test (lines 163-194) *)

(** [p.t.Errorf("got payload %+v, want %+v", payload, want)] *)
Inductive TestError := Errorf (got want : Payload).

(** [testMessageProcessor.Process] *)
Definition testMessageProcessor : JobPayloadProcessor TestError := λ payload,
  let want := {| Job := {| ID := 12345; Number := "1" |} |} in
  (if bool_decide (payload = want) then [] else [Errorf payload want],
   Success).

(** The queue made by [NewQueue(mb, name, prefetch)] keeps a pointer to the
    broker: it sees what is published and closed after it was made. Here the
    broker is passed to it at the time of the call. *)
Record Queue := { queue_name : string; prefetch_count : nat }.

Definition NewQueue (name : string) (prefetch : nat) : Queue :=
  {| queue_name := name; prefetch_count := prefetch |}.

Definition QueueSubscribe {Obs} (q : Queue) (mb : Broker)
    (cancelled_after : option nat)
    (processorFactory : unit → JobPayloadProcessor Obs) : Subscribed Obs :=
  Subscribe cancelled_after processorFactory
    (BrokerSubscribe (queue_name q) (prefetch_count q) mb).

(** The bytes the test publishes: an object whose member [job] is an object
    with the members [id], the number 12345, and [number], the string 1. *)
Definition test_body : string :=
  "{" +:+ quoted "job" +:+ ":{" +:+ quoted "id" +:+ ":12345,"
      +:+ quoted "number" +:+ ":" +:+ quoted "1" +:+ "}}".

(** [TestQueue]: the statements of the test, the broker threaded through
    them; the context passed to Subscribe is nil and never cancels. *)
Definition TestQueue : Subscribed TestError :=
  let mb := NewTestMessageBroker in
  let mb := DeclareQueue "builds.linux" mb in
  let q := NewQueue "builds.linux" 1 in
  let mb := Publish EmptyString "builds.linux" "test" test_body mb in
  let mb := Close mb in
  QueueSubscribe q mb None (λ _, testMessageProcessor).

End JobQueue.

(** ** The processor pool

    The pool is not among the sources; runWorker creates it and calls its
    [Run] with the configured pool size (lines 113-131). *)
Module Pool.

(** The states of a processor. *)
Inductive PState :=
| Created
| AcquiringEnvironment
| Running
| Finalizing
| Terminated.

Definition non_terminal (s : PState) : bool :=
  match s with Terminated => false | _ => true end.

(** Modelled from the spec: the transitions of the processor state machine.
    Created, AcquiringEnvironment, Running, Finalizing, Terminated follow one
    another; a failure to acquire the environment leads from
    AcquiringEnvironment directly to Terminated. *)
Definition next_state (s : PState) (acquired : bool) : PState :=
  match s with
  | Created => AcquiringEnvironment
  | AcquiringEnvironment => if acquired then Running else Terminated
  | Running => Finalizing
  | Finalizing => Terminated
  | Terminated => Terminated
  end.

(** A processor: the job it is bound to and its state. *)
Record Processor := { job : nat; state : PState }.

(** A fixed number of slots, each free or occupied by a processor; the
    dispatches not yet claimed; the jobs whose processor has terminated; and
    whether graceful shutdown has been invoked. *)
Record PoolState := {
  slots : list (option Processor);
  pending : list nat;
  finished : list nat;
  draining : bool
}.

(** Modelled from the spec: [run(poolSize, queueName)] starts [poolSize]
    concurrent execution slots. *)
Definition start (poolSize : nat) (jobs : list nat) : PoolState :=
  {| slots := replicate poolSize None; pending := jobs; finished := [];
     draining := false |}.

Inductive Action :=
| Claim (i : nat)
| Advance (i : nat) (acquired : bool)
| GracefulShutdown.

(** Modelled from the spec: what the slots do. A free slot claims the next
    available dispatch, unless graceful shutdown has been invoked, and a
    processor bound to the job is created in it; the processor in a slot
    takes its transitions; the slot is occupied until its processor
    terminates, and is then available again. [None] where the action cannot
    be taken. *)
Definition step (a : Action) (st : PoolState) : option PoolState :=
  match a with
  | Claim i =>
      if draining st then None
      else match slots st !! i, pending st with
           | Some None, j :: rest =>
               Some {| slots := <[i := Some {| job := j; state := Created |}]>
                                  (slots st);
                       pending := rest; finished := finished st;
                       draining := draining st |}
           | _, _ => None
           end
  | Advance i acquired =>
      match slots st !! i with
      | Some (Some p) =>
          match next_state (state p) acquired with
          | Terminated =>
              Some {| slots := <[i := None]> (slots st);
                      pending := pending st;
                      finished := job p :: finished st;
                      draining := draining st |}
          | s' =>
              Some {| slots := <[i := Some {| job := job p; state := s' |}]>
                                 (slots st);
                      pending := pending st; finished := finished st;
                      draining := draining st |}
          end
      | _ => None
      end
  | GracefulShutdown =>
      Some {| slots := slots st; pending := pending st;
              finished := finished st; draining := true |}
  end.

Fixpoint exec (acts : list Action) (st : PoolState) : option PoolState :=
  match acts with
  | [] => Some st
  | a :: rest => st' ← step a st; exec rest st'
  end.

(** The processors in the slots. *)
Definition active (st : PoolState) : list Processor := omap id (slots st).

(** The processors that are in a non-terminal state. *)
Definition in_flight (st : PoolState) : list Processor :=
  filter (λ p, non_terminal (state p) = true) (active st).

(** Every slot claims in turn. *)
Definition claim_all (n : nat) : list Action := Claim <$> seq 0 n.

(** What a slot counts for among the occupied ones. *)
Definition weight {A} (o : option A) : nat :=
  match o with Some _ => 1 | None => 0 end.

(** What every step keeps: the number of slots; that the processors in the
    slots are in a non-terminal state; and that each job is pending, in a
    slot, or finished. *)
Record pool_inv (poolSize total : nat) (st : PoolState) : Prop := {
  inv_slots : length (slots st) = poolSize;
  inv_live : Forall (λ o, ∀ p, o = Some p → non_terminal (state p) = true)
               (slots st);
  inv_jobs : (length (pending st) + length (active st) + length (finished st)
              = total)%nat
}.

End Pool.

(** ** Reading traces of runWorker *)
Module Traces.
Import Worker.

(** The events that create the build-script generator, the backend provider,
    the command dispatcher or the processor pool, or run the pool. *)
Definition sets_up_or_runs (e : Event) : bool :=
  match e with
  | NewBuildScriptGenerator | NewProvider _ _ | NewCommandDispatcher
  | NewProcessorPool _ _ | PoolRun _ _ => true
  | _ => false
  end.

(** Does the answer of a collaborator carry an error? *)
Definition failed {A} (r : option A * option Error) : bool := not_nil (snd r).

(** [ev] occurs in [t], and only after an occurrence of [before]. *)
Definition only_after (before ev : Event) (t : list Event) : Prop :=
  ∀ pre post, t = pre ++ ev :: post → before ∈ pre.

(** The claim of the design document on process exit: runWorker returns
    only after the pool's run call has returned and, after that, the broker
    connection has been closed. *)
Definition returns_after_run_and_close (t : list Event) : Prop :=
  RunWorkerReturns ∈ t →
  [PoolRunReturned; AmqpConnClose; RunWorkerReturns] `sublist_of` t.

(** A scan deciding [only_after]: [seen] tells whether [before] has already
    occurred. *)
Fixpoint preceded (before ev : Event) (seen : bool) (t : list Event) : bool :=
  match t with
  | [] => true
  | e :: t' =>
      if bool_decide (e = ev) then seen && preceded before ev seen t'
      else preceded before ev (seen || bool_decide (e = before)) t'
  end.

End Traces.

(** ** Concrete inputs *)
Module Inputs.
Import Worker.

(** An environment with a foreign variable and two provider settings. *)
Definition environ_docker : list string :=
  ["HOME=/root"; "TRAVIS_WORKER_DOCKER_ENDPOINT=tcp://localhost:4243";
   "TRAVIS_WORKER_DOCKER_CPUS=2"].

(** Two distinct variables of one provider whose names differ in case only. *)
Definition environ_clash : list string :=
  ["TRAVIS_WORKER_DOCKER_ENDPOINT=tcp://a"; "TRAVIS_WORKER_DOCKER_endpoint=tcp://b"].

(** A configuration with a Sentry DSN and no Librato account. *)
Definition config_docker : Config :=
  {| SentryDSN := "https://key@sentry.example/1";
     LibratoEmail := EmptyString; LibratoToken := EmptyString; LibratoSource := EmptyString;
     AmqpURI := "amqp://guest@localhost"; ProviderName := "docker";
     Hostname := "worker-1"; HardTimeout := 3000;
     SkipShutdownOnLogTimeout := false; PoolSize := 2;
     QueueName := "builds.linux" |}.

(** Every collaborator answers without error and the pool's run returns. *)
Definition world_ok : Externals :=
  {| cli_pprof_port := EmptyString; cli_debug := false; cli_config := config_docker;
     sentry_hook_result := (Some TheSentryHook, None);
     amqp_dial_result := (Some TheConnection, None);
     os_environ := environ_docker;
     new_provider_result := (Some TheProvider, None);
     pool_run_returns := true;
     amqp_close_result := None |}.

(** The broker cannot be reached. *)
Definition world_dial_fails : Externals :=
  {| cli_pprof_port := EmptyString; cli_debug := false; cli_config := config_docker;
     sentry_hook_result := (Some TheSentryHook, None);
     amqp_dial_result := (None, Some "dial tcp: connection refused");
     os_environ := environ_docker;
     new_provider_result := (Some TheProvider, None);
     pool_run_returns := true;
     amqp_close_result := None |}.

(** The broker is reached, the backend provider cannot be created. *)
Definition world_provider_fails : Externals :=
  {| cli_pprof_port := EmptyString; cli_debug := false; cli_config := config_docker;
     sentry_hook_result := (Some TheSentryHook, None);
     amqp_dial_result := (Some TheConnection, None);
     os_environ := environ_docker;
     new_provider_result := (None, Some "unknown provider");
     pool_run_returns := true;
     amqp_close_result := None |}.

(** The Sentry hook cannot be created: a nil hook and an error. *)
Definition world_sentry_fails : Externals :=
  {| cli_pprof_port := EmptyString; cli_debug := false; cli_config := config_docker;
     sentry_hook_result := (None, Some "raven: dsn missing private key");
     amqp_dial_result := (Some TheConnection, None);
     os_environ := environ_docker;
     new_provider_result := (Some TheProvider, None);
     pool_run_returns := true;
     amqp_close_result := None |}.

(** A subscription that yields the payload of the queue test and then a
    body that is no document, and ends. *)
Definition two_deliveries : JobQueue.Subscription :=
  {| JobQueue.deliveries :=
       [ {| JobQueue.tag := 1; JobQueue.body := JobQueue.test_body |};
         {| JobQueue.tag := 2; JobQueue.body := "not a document" |} ];
     JobQueue.ended := true |}.

(** The events of the two deliveries, the second settled while the first
    is still being processed. *)
Definition two_deliveries_trace : list (JobQueue.QEvent JobQueue.TestError) :=
  [ JobQueue.Bound 1 {| Wire.Job := {| Wire.ID := 12345; Wire.Number := "1" |} |};
    JobQueue.Settled 2 JobQueue.RejectDrop;
    JobQueue.ProcessorTerminated 1 JobQueue.Success;
    JobQueue.Settled 1 JobQueue.Ack ].

(** The events of the queue test in the order its single delivery gives
    them. *)
Definition test_queue_trace : list (JobQueue.QEvent JobQueue.TestError) :=
  [ JobQueue.Bound 1 {| Wire.Job := {| Wire.ID := 12345; Wire.Number := "1" |} |};
    JobQueue.ProcessorTerminated 1 JobQueue.Success;
    JobQueue.Settled 1 JobQueue.Ack ].

End Inputs.

(** ** Further vocabulary for ProviderConfigFromEnviron *)
Module ProviderConfigMore.
Import GoStrings ProviderConfig.

(** Is the byte one of the ASCII letters A to Z? *)
Definition is_upper_byte (c : ascii) : bool :=
  let n := nat_of_ascii c in (65 <=? n)%nat && (n <=? 90)%nat.

(** Does the string hold an ASCII upper-case letter? *)
Fixpoint has_upper (s : string) : bool :=
  match s with
  | EmptyString => false
  | String c s' => is_upper_byte c || has_upper s'
  end.

(** The string of an environment variable: name, "=", value. *)
Definition variable (name value : string) : string :=
  name +:+ "=" +:+ value.

End ProviderConfigMore.

(** ** Further concrete inputs *)
Module MoreInputs.

(** Two parts of an environment, the second setting ENDPOINT again. *)
Definition environ_first : list string :=
  ["TRAVIS_WORKER_DOCKER_ENDPOINT=tcp://a"; "TRAVIS_WORKER_DOCKER_CPUS=2"].

Definition environ_second : list string :=
  ["PATH=/bin"; "TRAVIS_WORKER_DOCKER_ENDPOINT=tcp://b"].

(** The broker is reached, and one provider setting lacks its "=". *)
Definition world_malformed_environ : Worker.Externals :=
  {| Worker.cli_pprof_port := EmptyString; Worker.cli_debug := false;
     Worker.cli_config := Inputs.config_docker;
     Worker.sentry_hook_result := (Some Worker.TheSentryHook, None);
     Worker.amqp_dial_result := (Some Worker.TheConnection, None);
     Worker.os_environ := ["HOME=/root"; "TRAVIS_WORKER_DOCKER_ENDPOINT"];
     Worker.new_provider_result := (Some Worker.TheProvider, None);
     Worker.pool_run_returns := true;
     Worker.amqp_close_result := None |}.

(** A configuration with a Librato account. *)
Definition config_librato : Worker.Config :=
  {| Worker.SentryDSN := EmptyString;
     Worker.LibratoEmail := "ops@example.org"; Worker.LibratoToken := "t0ken";
     Worker.LibratoSource := "worker-1";
     Worker.AmqpURI := "amqp://guest@localhost"; Worker.ProviderName := "docker";
     Worker.Hostname := "worker-1"; Worker.HardTimeout := 3000;
     Worker.SkipShutdownOnLogTimeout := false; Worker.PoolSize := 2;
     Worker.QueueName := "builds.linux" |}.

Definition world_librato : Worker.Externals :=
  {| Worker.cli_pprof_port := "6060"; Worker.cli_debug := true;
     Worker.cli_config := config_librato;
     Worker.sentry_hook_result := (None, None);
     Worker.amqp_dial_result := (Some Worker.TheConnection, None);
     Worker.os_environ := Inputs.environ_docker;
     Worker.new_provider_result := (Some Worker.TheProvider, None);
     Worker.pool_run_returns := true;
     Worker.amqp_close_result := None |}.

End MoreInputs.

(** ** Further readings of runWorker's traces *)
Module MoreTraces.
Import Worker Traces.

(** The creation of the backend provider. *)
Definition creates_provider (e : Event) : bool :=
  match e with NewProvider _ _ => true | _ => false end.

(** What runWorker does once it has a provider (lines 106-133). *)
Definition needs_provider (e : Event) : bool :=
  match e with
  | NewCommandDispatcher | Go CommandDispatcherRun | NewProcessorPool _ _
  | SetSkipShutdownOnLogTimeout _ | SignalNotify _ | Go SignalHandler
  | PoolRun _ _ | PoolRunReturned | AmqpConnClose => true
  | _ => false
  end.

(** What runWorker does from the dial to the pool's run, in source order. *)
Definition setup_sequence (config : Config) (cfg : gmap string string)
    : list Event :=
  [AmqpDial (AmqpURI config); Go AmqpCloseWatcher; NewBuildScriptGenerator;
   NewProvider (ProviderName config) cfg; NewCommandDispatcher;
   Go CommandDispatcherRun;
   NewProcessorPool (Hostname config) (HardTimeout config);
   SetSkipShutdownOnLogTimeout (SkipShutdownOnLogTimeout config);
   SignalNotify [SIGTERM; SIGINT]; Go SignalHandler;
   PoolRun (PoolSize config) (QueueName config)].

(** Are the three Librato settings all given? *)
Definition librato_configured (config : Config) : bool :=
  nonempty (LibratoEmail config) && nonempty (LibratoToken config)
    && nonempty (LibratoSource config).

(** *** The trace of runWorker written out by parts *)

(** Lines 45-50. *)
Definition pprof_part (w : Externals) : list Event :=
  if nonempty (cli_pprof_port w)
  then [Go (PprofServer ("localhost:" +:+ cli_pprof_port w))] else [].

(** Lines 52-54. *)
Definition debug_part (w : Externals) : list Event :=
  if cli_debug w then [SetLevel DebugLevel] else [].

(** Lines 63-70. *)
Definition sentry_part (w : Externals) : list Event :=
  if nonempty (SentryDSN (cli_config w)) then
    NewSentryHook (SentryDSN (cli_config w)) [PanicLevel; FatalLevel; ErrorLevel]
      :: (if failed (sentry_hook_result w)
          then [Log ErrorLevel ["err"] "couldn't create sentry hook"] else [])
      ++ [AddHook (fst (sentry_hook_result w))]
  else [].

(** Lines 72-78. *)
Definition metrics_part (w : Externals) : list Event :=
  if librato_configured (cli_config w) then
    [Log InfoLevel [] "starting librato metrics reporter";
     Go (LibratoReporter (LibratoEmail (cli_config w))
           (LibratoToken (cli_config w)) (LibratoSource (cli_config w)))]
  else
    [Log InfoLevel [] "starting logger metrics reporter"; Go MetricsLogReporter].

(** Lines 40-80: everything up to and including the dial. *)
Definition startup_part (w : Externals) : list Event :=
  [WithCancel; SetFormatter] ++ pprof_part w ++ debug_part w
    ++ [Log InfoLevel [] "worker started"; Log DebugLevel ["config"] "read config"]
    ++ sentry_part w ++ metrics_part w ++ [AmqpDial (AmqpURI (cli_config w))].

(** The deferred log line and the return. *)
Definition finish_part : list Event :=
  [Log InfoLevel [] "worker finished"; RunWorkerReturns].

(** Lines 110-138: from the command dispatcher to the close. *)
Definition pool_part (w : Externals) : list Event :=
  [Log DebugLevel ["provider"] "built provider"; NewCommandDispatcher;
   Go CommandDispatcherRun;
   NewProcessorPool (Hostname (cli_config w)) (HardTimeout (cli_config w));
   SetSkipShutdownOnLogTimeout (SkipShutdownOnLogTimeout (cli_config w));
   SignalNotify [SIGTERM; SIGINT]; Go SignalHandler;
   PoolRun (PoolSize (cli_config w)) (QueueName (cli_config w))]
  ++ (if pool_run_returns w then
        [PoolRunReturned; AmqpConnClose]
          ++ (if not_nil (amqp_close_result w)
              then [Log ErrorLevel ["err"] "couldn't close AMQP connection cleanly"]
              else [])
          ++ finish_part
      else []).

(** Lines 81-138: everything after the dial, by what the dial, the reading
    of the provider's settings and the provider creation answer. *)
Definition connect_part (read : option (gmap string string)) (w : Externals)
    : list Event :=
  if failed (amqp_dial_result w) then
    Log ErrorLevel ["err"] "couldn't connect to AMQP" :: finish_part
  else
    [Go AmqpCloseWatcher; Log DebugLevel [] "connected to AMQP";
     NewBuildScriptGenerator]
    ++ match read with
       | None => [Log InfoLevel [] "worker finished"; RunWorkerPanics]
       | Some cfg =>
           NewProvider (ProviderName (cli_config w)) cfg
             :: (if failed (new_provider_result w) then
                   Log ErrorLevel ["err"] "couldn't create backend provider"
                     :: finish_part
                 else pool_part w)
       end.

(** The events only the part up to the dial can hold. *)
Definition startup_only (e : Event) : bool :=
  match e with
  | WithCancel | SetFormatter | Go (PprofServer _) | SetLevel _
  | NewSentryHook _ _ | AddHook _ | Go (LibratoReporter _ _ _)
  | Go MetricsLogReporter | AmqpDial _ => true
  | _ => false
  end.

(** The events only the part after the dial can hold. *)
Definition connect_only (e : Event) : bool :=
  match e with
  | Go AmqpCloseWatcher | NewBuildScriptGenerator | NewProvider _ _
  | RunWorkerReturns | RunWorkerPanics => true
  | _ => needs_provider e
  end.

End MoreTraces.

(** ** Counting what the goroutines have done *)
Module MoreSupervisor.
Import Worker Supervisor.

Definition is_cancel (e : Event) : bool :=
  match e with Cancel => true | _ => false end.

Definition is_graceful (e : Event) : bool :=
  match e with PoolGracefulShutdown => true | _ => false end.

(** How often a kind of event occurs in a trace. *)
Definition count (kind : Event → bool) (t : list Event) : nat :=
  length (List.filter kind t).

(** 1 for a goroutine that has run its body, 0 for one still waiting. *)
Definition has_run (g : GoroutineState) : nat :=
  match g with Waiting => 0 | Exited => 1 end.

(** What every action keeps: the channel holds at most its capacity, and
    only registered signals; graceful shutdown has been called at most once,
    by the handler; the cancellation has been fired at most once by each
    goroutine. *)
Record supervisor_inv (st : State) : Prop := {
  inv_capacity : (length (signalChan st) ≤ signalChan_capacity)%nat;
  inv_registered : Forall (λ sig, sig ∈ registered) (signalChan st);
  inv_graceful : (count is_graceful (effects st) ≤ has_run (handler st))%nat;
  inv_cancel : (count is_cancel (effects st)
                ≤ has_run (handler st) + has_run (watcher st))%nat
}.

End MoreSupervisor.
(** * Properties of ProviderConfigFromEnviron *)
Module ProviderConfigFacts.
Import GoStrings ProviderConfig.

Section WithCaseMaps.
Variables ToUpper ToLower : string → string.

Local Abbreviation key := (entry_key ToLower).

Lemma loop_body_skip prefix config e :
  HasPrefix e prefix = false → loop_body ToLower prefix config e = Some config.
Proof. unfold loop_body. by intros ->. Qed.

Lemma loop_body_assign prefix config e :
  HasPrefix e prefix = true → has_equals e = true →
  loop_body ToLower prefix config e
  = Some (<[key prefix e := var_value e]> config).
Proof.
  unfold loop_body, has_equals, entry_key, var_name, var_value, SplitN2.
  intros -> He. destruct (cut "="%char e) as [[a b]|]; [done | discriminate].
Qed.

(** A matching entry without "=" makes [pair[1]] panic. *)
Lemma loop_body_panic prefix config e :
  HasPrefix e prefix = true → has_equals e = false →
  loop_body ToLower prefix config e = None.
Proof.
  unfold loop_body, has_equals, SplitN2.
  intros -> He. destruct (cut "="%char e) as [[a b]|]; [discriminate | done].
Qed.

Lemma range_loop_assign prefix environ : ∀ config,
  forallb has_equals (matching prefix environ) = true →
  range_loop ToLower prefix config environ
  = Some (assign_all ToLower prefix config (matching prefix environ)).
Proof.
  induction environ as [|e rest IH]; intros config Hall; [done |].
  cbn [range_loop matching List.filter] in *.
  destruct (HasPrefix e prefix) eqn:Hp.
  - cbn [forallb] in Hall. apply andb_prop in Hall as [He Hrest].
    rewrite (loop_body_assign _ _ _ Hp He). cbn. by rewrite IH.
  - rewrite (loop_body_skip _ _ _ Hp). cbn. by rewrite IH.
Qed.

Lemma assign_all_snoc prefix config es e :
  assign_all ToLower prefix config (es ++ [e])
  = <[key prefix e := var_value e]> (assign_all ToLower prefix config es).
Proof. unfold assign_all. by rewrite foldl_app. Qed.

(** Looking a key up after the assignments: the last variable carrying
    the key decides; a key no variable carries keeps its old value. *)
Lemma assign_all_lookup prefix config es k v :
  assign_all ToLower prefix config es !! k = Some v ↔
    (∃ (before : list string) (e : string) (after : list string),
        es = (before ++ e :: after)%list
        ∧ key prefix e = k ∧ var_value e = v
        ∧ ∀ e', e' ∈ after → key prefix e' ≠ k)
    ∨ (config !! k = Some v ∧ ∀ e, e ∈ es → key prefix e ≠ k).
Proof.
  induction es as [|e es IH] using rev_ind.
  - cbn. split.
    + intros H. right. split; [done |]. intros e He. by apply elem_of_nil in He.
    + intros [(before & e & after & Heq & _) | [H _]]; [| done].
      by destruct before.
  - rewrite assign_all_snoc. destruct (decide (key prefix e = k)) as [Hk | Hk].
    + rewrite Hk, lookup_insert_eq. split.
      * intros [= <-]. left. exists es, e, []. split_and!; [done.. |].
        intros e' He'. by apply elem_of_nil in He'.
      * intros [(before & e0 & after & Heq & Hk0 & Hv0 & Hlast) | [_ Hno]].
        -- destruct after as [|a after _] using rev_ind.
           ++ apply app_inj_tail in Heq as [_ <-]. by rewrite Hv0.
           ++ rewrite app_comm_cons, app_assoc in Heq.
              apply app_inj_tail in Heq as [_ <-].
              exfalso. apply (Hlast e); [| done].
              apply elem_of_app. right. apply list_elem_of_singleton. done.
        -- exfalso. apply (Hno e); [| done].
           apply elem_of_app. right. by apply list_elem_of_singleton.
    + rewrite lookup_insert_ne by done. rewrite IH. split.
      * intros [(before & e0 & after & -> & Hk0 & Hv0 & Hlast) | [Hc Hno]].
        -- left. exists before, e0, (after ++ [e])%list.
           split_and!; [by rewrite <- app_assoc | done.. |].
           intros e' [He' | He']%elem_of_app; [by apply Hlast |].
           apply list_elem_of_singleton in He' as ->. done.
        -- right. split; [done |].
           intros e' [He' | He']%elem_of_app; [by apply Hno |].
           apply list_elem_of_singleton in He' as ->. done.
      * intros [(before & e0 & after & Heq & Hk0 & Hv0 & Hlast) | [Hc Hno]].
        -- left. destruct after as [|a after _] using rev_ind.
           ++ apply app_inj_tail in Heq as [_ <-]. done.
           ++ rewrite app_comm_cons, app_assoc in Heq.
              apply app_inj_tail in Heq as [-> <-].
              exists before, e0, after. split_and!; [done.. |].
              intros e' He'. apply Hlast, elem_of_app. by left.
        -- right. split; [done |].
           intros e' He'. apply Hno, elem_of_app. by left.
Qed.

Lemma assign_all_size prefix es : ∀ config,
  NoDup (key prefix <$> es) →
  (∀ e, e ∈ es → config !! key prefix e = None) →
  size (assign_all ToLower prefix config es) = (size config + length es)%nat.
Proof.
  induction es as [|e es IH]; intros config Hnd Hfresh; cbn; [lia |].
  apply NoDup_cons in Hnd as [Hne Hnd].
  fold (assign_all ToLower prefix (<[key prefix e := var_value e]> config) es).
  rewrite IH; [| done |].
  - rewrite map_size_insert_None; [lia |]. apply Hfresh. by left.
  - intros e' He'. rewrite lookup_insert_ne.
    + apply Hfresh. by right.
    + intros Heq. apply Hne. rewrite Heq. by apply list_elem_of_fmap_2.
Qed.

End WithCaseMaps.
End ProviderConfigFacts.

(** * Properties of runWorker's traces *)
Module WorkerFacts.
Import GoStrings ProviderConfig Worker Traces.

Lemma nonempty_true s : nonempty s = true ↔ s ≠ EmptyString.
Proof.
  unfold nonempty. rewrite negb_true_iff.
  destruct (String.eqb_spec s EmptyString); naive_solver.
Qed.

Lemma split_suffix {A} (l suf : list A) :
  drop (length l - length suf) l = suf → ∃ pre, l = pre ++ suf.
Proof.
  intros H. exists (take (length l - length suf) l).
  transitivity (take (length l - length suf) l ++ drop (length l - length suf) l).
  - symmetry. apply take_drop.
  - by rewrite H.
Qed.

Lemma split_infix {A} (n : nat) (l mid : list A) :
  take (length mid) (drop n l) = mid →
  l = take n l ++ mid ++ drop (n + length mid) l.
Proof.
  intros H. rewrite <- H at 1.
  rewrite <- drop_drop, take_drop. by rewrite take_drop.
Qed.

Lemma preceded_sound before ev t : ∀ seen,
  preceded before ev seen t = true →
  ∀ pre post, t = pre ++ ev :: post → seen = true ∨ before ∈ pre.
Proof.
  induction t as [|e t IH]; intros seen Hp pre post Heq.
  - by destruct pre.
  - cbn in Hp. destruct pre as [|p pre]; simplify_eq/=.
    + rewrite bool_decide_eq_true_2 in Hp by done.
      apply andb_prop in Hp as [-> _]. by left.
    + case_bool_decide as Hev.
      * apply andb_prop in Hp as [-> _]. by left.
      * destruct (IH _ Hp pre post eq_refl) as [Hseen | Hin].
        -- apply orb_prop in Hseen as [-> | Hb]; [by left |].
           apply bool_decide_eq_true in Hb as ->. right. by left.
        -- right. by right.
Qed.

Lemma preceded_only_after before ev t :
  preceded before ev false t = true → only_after before ev t.
Proof.
  intros Hp pre post Heq.
  by destruct (preceded_sound _ _ _ _ Hp pre post Heq).
Qed.

(** Case analysis over what runWorker reads before it dials. *)
Ltac startup_cases w :=
  unfold runWorker, runWorker_prog, runWorker_body;
  destruct (nonempty (cli_pprof_port w)), (cli_debug w),
    (nonempty (LibratoEmail (cli_config w))
       && nonempty (LibratoToken (cli_config w))
       && nonempty (LibratoSource (cli_config w)));
  (destruct (nonempty (SentryDSN (cli_config w)));
   [destruct (sentry_hook_result w) as [? [?|]] |]).

(** ... and over what it is answered from the dial on, each answer being
    looked at only where runWorker gets that far. *)
Ltac connect_cases ToUpper ToLower w :=
  destruct (amqp_dial_result w) as [? [?|]];
  [| destruct (ProviderConfigFromEnviron ToUpper ToLower (os_environ w)
                 (ProviderName (cli_config w)));
     [destruct (new_provider_result w) as [? [?|]];
      [| destruct (pool_run_returns w);
         [destruct (amqp_close_result w) |]] |]].

Ltac not_in_trace H :=
  repeat (apply elem_of_cons in H as [H | H]; [discriminate H |]);
  by apply elem_of_nil in H.

Section WithCaseMaps.
Variables ToUpper ToLower : string → string.

Lemma close_only_after_run (w : Externals) :
  only_after PoolRunReturned AmqpConnClose (runWorker ToUpper ToLower w).
Proof.
  apply preceded_only_after.
  startup_cases w; connect_cases ToUpper ToLower w; reflexivity.
Qed.

Lemma return_after_run_and_close (w : Externals) :
  failed (amqp_dial_result w) = false →
  failed (new_provider_result w) = false →
  returns_after_run_and_close (runWorker ToUpper ToLower w).
Proof.
  unfold failed, returns_after_run_and_close.
  startup_cases w; connect_cases ToUpper ToLower w; cbn;
    intros Hd Hp Hret; try discriminate;
    first [ not_in_trace Hret | repeat constructor ].
Qed.

Lemma watcher_started_iff_dialled (w : Externals) :
  Go AmqpCloseWatcher ∈ runWorker ToUpper ToLower w
  ↔ failed (amqp_dial_result w) = false.
Proof.
  unfold failed.
  startup_cases w; connect_cases ToUpper ToLower w; cbn;
    (split; intros H);
    first [ done | by repeat constructor | exfalso; not_in_trace H ].
Qed.

End WithCaseMaps.
End WorkerFacts.

(** * Properties of the signal channel and the watching goroutines *)
Module SupervisorFacts.
Import Worker Supervisor.

Lemma run_snoc acts a st : run (acts ++ [a]) st = step (run acts st) a.
Proof. unfold run. by rewrite foldl_app. Qed.

Lemma run_app acts later st : run (acts ++ later) st = run later (run acts st).
Proof. unfold run. by rewrite foldl_app. Qed.

Lemma first_signal_snoc acts a :
  first_signal (acts ++ [a])
  = match first_signal acts with
    | Some sig => Some sig
    | None => first_signal [a]
    end.
Proof.
  induction acts as [|b acts IH]; cbn [app first_signal].
  - by destruct (first_signal [a]).
  - destruct b as [sig| |r]; [| done..]. by case_bool_decide.
Qed.

Lemma handler_inv_run acts :
  forallb is_signal_action acts = true → handler_inv acts (run acts init).
Proof.
  induction acts as [|a acts IH] using rev_ind; intros Hsig.
  - by cbn.
  - rewrite forallb_app in Hsig. apply andb_prop in Hsig as [Hacts Ha].
    specialize (IH Hacts). rewrite run_snoc.
    unfold handler_inv in *. rewrite first_signal_snoc.
    destruct (run acts init) as [chan h wt eff]; cbn in *.
    destruct a as [sig| |r]; [| | discriminate]; cbn.
    + unfold relay; cbn.
      destruct h; cbn.
      * destruct IH as [-> ->].
        destruct (first_signal acts) as [s|]; cbn;
          case_bool_decide; cbn; done.
      * destruct IH as (s & -> & ->).
        case_bool_decide; [destruct (length chan <=? 0)%nat |]; cbn; eauto.
    + unfold handler_step; cbn. destruct h; cbn.
      * destruct IH as [-> ->].
        destruct (first_signal acts) as [s|]; cbn; eauto.
      * destruct IH as (s & -> & ->). eauto.
Qed.

Lemma exited_stable later : ∀ st,
  forallb is_signal_action later = true → handler st = Exited →
  effects (run later st) = effects st ∧ handler (run later st) = Exited.
Proof.
  induction later as [|a later IH]; intros st Hsig Hex; [done |].
  cbn in Hsig. apply andb_prop in Hsig as [Ha Hlater].
  change (run (a :: later) st) with (run later (step st a)).
  assert (effects (step st a) = effects st ∧ handler (step st a) = Exited)
    as [Heff Hh].
  { destruct a as [sig| |r]; [| | discriminate]; cbn.
    - unfold relay. case_bool_decide; [destruct (_ <? _)%nat |]; done.
    - unfold handler_step. by rewrite Hex. }
  destruct (IH (step st a) Hlater Hh) as [-> ->]. done.
Qed.

Lemma cancel_not_graceful sig :
  PoolGracefulShutdown ∈ signalHandler sig → Cancel ∉ signalHandler sig.
Proof.
  unfold signalHandler. case_decide; intros Hin Hc.
  - apply elem_of_cons in Hc as [? | Hc]; [done |].
    apply elem_of_cons in Hc as [? | Hc]; [done |]. by apply elem_of_nil in Hc.
  - apply elem_of_cons in Hin as [? | Hin]; [done |].
    apply elem_of_cons in Hin as [? | Hin]; [done |]. by apply elem_of_nil in Hin.
Qed.

End SupervisorFacts.

(** * Properties of the job queue *)
Module JobQueueFacts.
Import Wire JobQueue.

Section Merging.
Context {A : Type} (P : A → Prop) `{!∀ x, Decision (P x)}.

(** If the events satisfying [P] are exactly those of thread [k], the
    events of a merge that satisfy [P] are thread [k], in its order. *)
Lemma merges_filter (k : nat) (ts : list (list A)) (t : list A) :
  merges ts t →
  (∀ j l x, ts !! j = Some l → x ∈ l → P x ↔ j = k) →
  filter P t = default [] (ts !! k).
Proof.
  induction 1 as [ts Hall | ts i x l t Hi Hm IH]; intros Hsel.
  - destruct (ts !! k) as [l|] eqn:Hk; [| done].
    by rewrite (proj1 (Forall_forall _ _) Hall l (list_elem_of_lookup_2 _ _ _ Hk)).
  - assert (Hlt : (i < length ts)%nat) by (by eapply lookup_lt_Some).
    assert (Hsel' : ∀ j l' y, <[i:=l]> ts !! j = Some l' → y ∈ l' → P y ↔ j = k).
    { intros j l' y Hj Hy. destruct (decide (i = j)) as [<- | Hne].
      - rewrite list_lookup_insert_eq in Hj by done. simplify_eq.
        eapply Hsel; [exact Hi | by right].
      - rewrite list_lookup_insert_ne in Hj by done. by eapply Hsel. }
    specialize (IH Hsel').
    assert (Hx : P x ↔ i = k) by (eapply Hsel; [exact Hi | by left]).
    destruct (decide (i = k)) as [-> | Hne].
    + rewrite filter_cons_True by by apply Hx.
      rewrite IH, list_lookup_insert_eq, Hi by done. done.
    + rewrite filter_cons_False by (by rewrite Hx).
      by rewrite IH, list_lookup_insert_ne.
Qed.

Lemma filter_all (l : list A) : (∀ x, P x) → filter P l = l.
Proof.
  intros HP. induction l as [|x l IH]; [done |].
  by rewrite filter_cons_True, IH.
Qed.

End Merging.

(** A single thread merges to itself only. *)
Lemma merges_single {A} (l t : list A) : merges [l] t → t = l.
Proof.
  intros Hm. rewrite <- (filter_all (λ _, True) t) by done.
  rewrite (merges_filter (λ _, True) 0 _ _ Hm); [done |].
  intros [|j] l' x Hj _; [done | by destruct j].
Qed.

Section WithObservations.
Context {Obs : Type}.
Implicit Types (factory : unit → JobPayloadProcessor Obs) (d : Delivery).

(** Every event of a delivery's thread carries the delivery's tag. *)
Lemma handle_tags factory d e :
  e ∈ handle factory d → event_tag e = tag d.
Proof.
  unfold handle. destruct (decodePayload (body d)) as [payload|].
  - destruct (factory tt payload) as [seen outcome].
    rewrite elem_of_cons, elem_of_app, list_elem_of_fmap.
    intros [-> | [(o & -> & _) | Hin]]; [done.. |].
    apply elem_of_cons in Hin as [-> | Hin]; [done |].
    by apply list_elem_of_singleton in Hin as ->.
  - by intros ->%list_elem_of_singleton.
Qed.

(** The thread of a delivery ends with its one settlement; and when a
    processor was bound, the event just before is its termination. *)
Lemma handle_shape factory d :
  ∃ pre s,
    handle factory d = pre ++ [Settled (tag d) s]
    ∧ Forall (λ e, is_settled e = false) pre
    ∧ (∀ payload, Bound (tag d) payload ∈ handle factory d →
         ∃ pre' outcome,
           pre = pre' ++ [ProcessorTerminated (tag d) outcome]
           ∧ s = settlement_of outcome).
Proof.
  unfold handle. destruct (decodePayload (body d)) as [payload|].
  - destruct (factory tt payload) as [seen outcome].
    exists (Bound (tag d) payload :: (Observed (tag d) <$> seen)
              ++ [ProcessorTerminated (tag d) outcome]),
      (settlement_of outcome).
    split_and!.
    + cbn. by rewrite <- app_assoc.
    + constructor; [done |]. apply Forall_app. split; [| by constructor].
      apply Forall_fmap, Forall_true. done.
    + intros _ _. by exists (Bound (tag d) payload :: (Observed (tag d) <$> seen)), outcome.
  - exists [], RejectDrop. split_and!; [done | constructor |].
    by intros payload ?%list_elem_of_singleton.
Qed.

(** Within any merge of the threads of deliveries with distinct tags, the
    lifetime of a delivery is its own thread. *)
Lemma lifetime_is_thread factory (ds : list Delivery) (t : list (QEvent Obs)) k d :
  NoDup (tag <$> ds) →
  merges (handle factory <$> ds) t →
  ds !! k = Some d →
  lifetime (tag d) t = handle factory d.
Proof.
  intros Hnd Hm Hk. unfold lifetime.
  rewrite (merges_filter _ k _ _ Hm).
  - by rewrite list_lookup_fmap, Hk.
  - intros j l x Hj Hx. rewrite list_lookup_fmap in Hj.
    destruct (ds !! j) as [d'|] eqn:Hdj; simplify_eq/=.
    rewrite (handle_tags _ _ _ Hx). split.
    + intros Htag. eapply NoDup_lookup; [exact Hnd | |].
      * by rewrite list_lookup_fmap, Hdj.
      * rewrite list_lookup_fmap, Hk. cbn. by rewrite Htag.
    + intros ->. by simplify_eq.
Qed.

End WithObservations.
End JobQueueFacts.

(** * Properties of the processor pool *)
Module PoolFacts.
Import Pool.

(** Replacing the content of a slot changes the number of occupied slots by
    the difference of the two contents. *)
Lemma occupied_insert {A} (l : list (option A)) : ∀ i o o',
  l !! i = Some o →
  (length (omap id (<[i := o']> l)) + weight o
   = length (omap id l) + weight o')%nat.
Proof.
  induction l as [|x l IH]; intros [|i] o o' Hi; simplify_eq/=.
  - destruct o, o'; cbn; lia.
  - specialize (IH i o o' Hi). destruct x; cbn; lia.
Qed.

Lemma occupied_le {A} (l : list (option A)) :
  (length (omap id l) ≤ length l)%nat.
Proof. induction l as [|[x|] l IH]; cbn; lia. Qed.

Lemma free_slot_exists {A} (l : list (option A)) :
  (length (omap id l) < length l)%nat → ∃ i, l !! i = Some None.
Proof.
  induction l as [|[x|] l IH]; cbn; intros Hlt.
  - lia.
  - destruct IH as [i Hi]; [lia |]. by exists (S i).
  - by exists 0%nat.
Qed.

Lemma occupied_filled {A} (l : list A) (n : nat) :
  omap id ((Some <$> l) ++ replicate n None) = l.
Proof.
  induction l as [|x l IH]; cbn.
  - induction n as [|n IHn]; [done | by cbn].
  - by rewrite IH.
Qed.

Lemma occupied_Forall {A} (Q : A → Prop) (l : list (option A)) :
  Forall (λ o, ∀ p, o = Some p → Q p) l → Forall Q (omap id l).
Proof.
  induction 1 as [|[p|] l Hp Hl IH]; cbn; [constructor | | done].
  constructor; [by apply Hp | done].
Qed.

Lemma filter_Forall {A} (Q : A → Prop) `{!∀ x, Decision (Q x)} (l : list A) :
  Forall Q l → filter Q l = l.
Proof.
  induction 1 as [|x l Hx Hl IH]; [done |].
  by rewrite filter_cons_True, IH.
Qed.

Lemma pool_inv_start poolSize jobs :
  pool_inv poolSize (length jobs) (start poolSize jobs).
Proof.
  split; cbn.
  - apply length_replicate.
  - apply Forall_replicate. done.
  - unfold active. cbn.
    rewrite <- (app_nil_l (replicate poolSize None)).
    change [] with (Some <$> @nil Processor) at 1.
    rewrite occupied_filled. cbn. lia.
Qed.

Lemma pool_inv_step poolSize total a st st' :
  pool_inv poolSize total st → step a st = Some st' →
  pool_inv poolSize total st'.
Proof.
  intros [Hlen Hlive Hjobs] Hstep. unfold active in *.
  destruct a as [i | i acquired |]; cbn in Hstep.
  - destruct (draining st); [done |].
    destruct (slots st !! i) as [[p|]|] eqn:Hi; [done | | done].
    destruct (pending st) as [|j rest] eqn:Hp; simplify_eq.
    split; cbn.
    + by rewrite length_insert.
    + apply Forall_insert; [done |]. by intros p [= <-].
    + pose proof (occupied_insert (slots st) i None
                    (Some {| job := j; state := Created |}) Hi) as Hocc.
      cbn in *. lia.
  - destruct (slots st !! i) as [[p|]|] eqn:Hi; [| done..].
    assert (Hp : non_terminal (state p) = true).
    { eapply (proj1 (Forall_lookup _ _) Hlive); [exact Hi | done]. }
    destruct (next_state (state p) acquired) eqn:Hnext; simplify_eq;
      (split; cbn;
       [ by rewrite length_insert
       | apply Forall_insert; [done |]; by intros ? [= <-]
       | ]).
    1-4: pose proof (occupied_insert (slots st) i (Some p)
                       (Some {| job := job p; state := next_state (state p) acquired |})
                       Hi) as Hocc; rewrite Hnext in Hocc; cbn in *; lia.
    pose proof (occupied_insert (slots st) i (Some p) None Hi) as Hocc.
    cbn in *. lia.
  - simplify_eq. by split.
Qed.

Lemma pool_inv_exec poolSize total acts : ∀ st st',
  pool_inv poolSize total st → exec acts st = Some st' →
  pool_inv poolSize total st'.
Proof.
  induction acts as [|a acts IH]; intros st st' Hinv Hexec; cbn in Hexec.
  - by simplify_eq.
  - destruct (step a st) as [st1|] eqn:Hstep; [| done].
    eapply IH; [| exact Hexec]. by eapply pool_inv_step.
Qed.

(** Claiming in turn fills the slots with the pending jobs. *)
Lemma exec_claims (js : list nat) : ∀ (filled : list Processor) (m : nat) fin,
  (length js ≤ m)%nat →
  exec (Claim <$> seq (length filled) (length js))
       {| slots := (Some <$> filled) ++ replicate m None; pending := js;
          finished := fin; draining := false |}
  = Some {| slots := (Some <$> (filled
                        ++ ((λ j, {| job := j; state := Created |}) <$> js)))
                     ++ replicate (m - length js) None;
            pending := []; finished := fin; draining := false |}.
Proof.
  induction js as [|j js IH]; intros filled m fin Hm; cbn [length seq fmap list_fmap exec].
  - by rewrite app_nil_r, Nat.sub_0_r.
  - destruct m as [|m]; [cbn in Hm; lia |].
    cbn [step draining slots pending].
    rewrite lookup_app_r by (by rewrite length_fmap).
    rewrite length_fmap, Nat.sub_diag. cbn [replicate lookup list_lookup].
    cbn [mbind option_bind].
    replace (<[length filled := Some {| job := j; state := Created |}]>
               ((Some <$> filled) ++ None :: replicate m None))
      with ((Some <$> (filled ++ [{| job := j; state := Created |}]))
              ++ replicate m None).
    + replace (S (length filled))
        with (length (filled ++ [{| job := j; state := Created |}]))
        by (rewrite length_app; cbn; lia).
      rewrite IH by (cbn in Hm; lia).
      by rewrite <- app_assoc.
    + rewrite fmap_app, <- app_assoc. cbn.
      rewrite insert_app_r_alt by (by rewrite length_fmap).
      by rewrite length_fmap, Nat.sub_diag.
Qed.

End PoolFacts.

(** * Further properties of ProviderConfigFromEnviron *)
Module ProviderConfigMoreFacts.
Import GoStrings ProviderConfig ProviderConfigFacts ProviderConfigMore.

(** *** The string functions *)

Lemma append_nil (b : string) : EmptyString +:+ b = b.
Proof. reflexivity. Qed.

Lemma append_cons c (a b : string) : String c a +:+ b = String c (a +:+ b).
Proof. reflexivity. Qed.

Lemma append_assoc (a b c : string) : (a +:+ b) +:+ c = a +:+ (b +:+ c).
Proof.
  induction a as [|x a IH]; [done |]. by rewrite !append_cons, IH.
Qed.

Lemma HasPrefix_app p r : HasPrefix (p +:+ r) p = true.
Proof.
  induction p as [|c p IH]; [by destruct r |].
  rewrite append_cons. cbn [HasPrefix]. by rewrite Ascii.eqb_refl.
Qed.

Lemma HasPrefix_inv s p : HasPrefix s p = true → ∃ r, s = p +:+ r.
Proof.
  revert s. induction p as [|c p IH]; intros s H; [by exists s |].
  destruct s as [|d s]; [done |]. cbn [HasPrefix] in H.
  destruct (Ascii.eqb_spec d c) as [-> |]; [| done].
  destruct (IH s H) as [r ->]. by exists r.
Qed.

Lemma HasPrefix_shorter s a b :
  HasPrefix s (a +:+ b) = true → HasPrefix s a = true.
Proof.
  revert s. induction a as [|c a IH]; intros s H; [by destruct s |].
  rewrite append_cons in H. destruct s as [|d s]; [done |].
  cbn [HasPrefix] in *. destruct (Ascii.eqb d c); [by apply IH | done].
Qed.

Lemma slice_from_app p r : slice_from (String.length p) (p +:+ r) = r.
Proof. induction p as [|c p IH]; [by destruct r | done]. Qed.

Lemma TrimPrefix_app p r : TrimPrefix (p +:+ r) p = r.
Proof. unfold TrimPrefix. by rewrite HasPrefix_app, slice_from_app. Qed.

(** Cutting at the first separator loses nothing, and the part before holds
    no separator. *)
Lemma cut_Some sep s a b :
  cut sep s = Some (a, b) → s = a +:+ String sep b ∧ cut sep a = None.
Proof.
  revert a. induction s as [|c s IH]; intros a H; [done |].
  cbn [cut] in H. destruct (Ascii.eqb_spec c sep) as [-> | Hne].
  - by simplify_eq.
  - destruct (cut sep s) as [[a' b']|]; [| done]. simplify_eq.
    destruct (IH a' eq_refl) as [-> Ha]. split; [done |]. cbn [cut].
    destruct (Ascii.eqb_spec c sep); [done |]. by rewrite Ha.
Qed.

Lemma cut_app sep a b :
  cut sep a = None → cut sep (a +:+ String sep b) = Some (a, b).
Proof.
  induction a as [|c a IH]; intros H.
  - rewrite append_nil. cbn [cut]. by rewrite Ascii.eqb_refl.
  - rewrite append_cons. cbn [cut] in *. destruct (Ascii.eqb c sep); [done |].
    destruct (cut sep a) as [[? ?]|]; [done |]. by rewrite IH.
Qed.

Lemma cut_None_both sep a b :
  cut sep a = None → cut sep b = None → cut sep (a +:+ b) = None.
Proof.
  induction a as [|c a IH]; intros Ha Hb; [done |].
  rewrite append_cons. cbn [cut] in *. destruct (Ascii.eqb c sep); [done |].
  destruct (cut sep a) as [[? ?]|]; [done |]. by rewrite IH.
Qed.

Lemma cut_None_app sep a b :
  cut sep (a +:+ b) = None → cut sep a = None.
Proof.
  induction a as [|c a IH]; [done |]. rewrite append_cons. cbn [cut].
  destruct (Ascii.eqb c sep); [done |].
  destruct (cut sep (a +:+ b)) as [[? ?]|]; [done |]. intros _. by rewrite IH.
Qed.

Section WithCaseMaps.
Variables ToUpper ToLower : string → string.

Lemma range_loop_app prefix env1 env2 : ∀ config,
  range_loop ToLower prefix config (env1 ++ env2)
  = range_loop ToLower prefix config env1
      ≫= λ config', range_loop ToLower prefix config' env2.
Proof.
  induction env1 as [|e env1 IH]; intros config; [done |]. cbn.
  destruct (loop_body ToLower prefix config e) as [config'|]; [| done].
  cbn. apply IH.
Qed.

(** The loop panics exactly on an entry that has the prefix and no "=". *)
Lemma range_loop_None prefix env : ∀ config,
  range_loop ToLower prefix config env = None
  ↔ ∃ e, e ∈ env ∧ HasPrefix e prefix = true ∧ has_equals e = false.
Proof.
  induction env as [|e env IH]; intros config; cbn.
  - split; [done |]. by intros (e & ?%elem_of_nil & _).
  - destruct (HasPrefix e prefix) eqn:Hp.
    + destruct (has_equals e) eqn:He.
      * rewrite (loop_body_assign _ _ _ _ Hp He). cbn. rewrite IH.
        split; intros (e' & Hin & Hp' & He'); exists e'.
        -- split; [by right | done].
        -- apply elem_of_cons in Hin as [-> | Hin]; [congruence | done].
      * rewrite (loop_body_panic _ _ _ _ Hp He). cbn.
        split; [| done]. intros _. exists e. split; [by left | done].
    + rewrite (loop_body_skip _ _ _ _ Hp). cbn. rewrite IH.
      split; intros (e' & Hin & Hp' & He'); exists e'.
      * split; [by right | done].
      * apply elem_of_cons in Hin as [-> | Hin]; [congruence | done].
Qed.

Lemma range_loop_matching prefix env : ∀ config,
  range_loop ToLower prefix config (matching prefix env)
  = range_loop ToLower prefix config env.
Proof.
  induction env as [|e env IH]; intros config; [done |].
  cbn [matching List.filter]. destruct (HasPrefix e prefix) eqn:Hp.
  - cbn. destruct (loop_body ToLower prefix config e); [apply IH | done].
  - fold (matching prefix env). cbn.
    rewrite (loop_body_skip _ _ _ _ Hp). cbn. apply IH.
Qed.

Lemma matching_none prefix env :
  (∀ e, e ∈ env → HasPrefix e prefix = false) → matching prefix env = [].
Proof.
  induction env as [|e env IH]; intros H; [done |]. cbn.
  rewrite (H e) by by left. apply IH. intros e' He'. apply H. by right.
Qed.

Lemma range_loop_Some prefix env config m :
  range_loop ToLower prefix config env = Some m →
  m = assign_all ToLower prefix config (matching prefix env).
Proof.
  intros H.
  assert (Hall : forallb has_equals (matching prefix env) = true).
  { apply forallb_forall. intros e He. apply filter_In in He as [Hin Hp].
    destruct (has_equals e) eqn:Heq; [done |].
    assert (range_loop ToLower prefix config env = None); [| congruence].
    apply range_loop_None. exists e. split; [| done]. by apply list_elem_of_In. }
  rewrite (range_loop_assign ToLower prefix env config Hall) in H. by simplify_eq.
Qed.

(** The assignments onto a map are those onto the empty map laid over it. *)
Lemma assign_all_union prefix es : ∀ config,
  assign_all ToLower prefix config es
  = assign_all ToLower prefix ∅ es ∪ config.
Proof.
  induction es as [|e es IH] using rev_ind; intros config.
  - cbn. by rewrite (left_id_L ∅ (∪)).
  - rewrite !assign_all_snoc, IH. by rewrite insert_union_l.
Qed.

Lemma matching_app prefix env1 env2 :
  matching prefix (env1 ++ env2) = matching prefix env1 ++ matching prefix env2.
Proof. unfold matching. apply List.filter_app. Qed.

Lemma has_equals_false e : has_equals e = false ↔ cut "="%char e = None.
Proof. unfold has_equals. by destruct (cut "="%char e). Qed.

(** An entry made of the prefix, a name without "=", "=" and a value is
    assigned under the lower-cased name. *)
Lemma loop_body_variable prefix config name value :
  has_equals prefix = false → has_equals name = false →
  loop_body ToLower prefix config (variable (prefix +:+ name) value)
  = Some (<[ToLower name := value]> config).
Proof.
  intros Hp%has_equals_false Hn%has_equals_false.
  assert (Hcut : cut "="%char (variable (prefix +:+ name) value)
                 = Some (prefix +:+ name, value)).
  { unfold variable. apply (cut_app "="%char). by apply cut_None_both. }
  rewrite loop_body_assign.
  - unfold entry_key, var_name, var_value. rewrite Hcut.
    by rewrite TrimPrefix_app.
  - unfold variable. rewrite append_assoc. apply HasPrefix_app.
  - unfold has_equals. by rewrite Hcut.
Qed.

Lemma elem_of_matching prefix env e :
  e ∈ matching prefix env ↔ e ∈ env ∧ HasPrefix e prefix = true.
Proof. unfold matching. by rewrite !list_elem_of_In, filter_In. Qed.

Lemma assign_all_app prefix config es1 es2 :
  assign_all ToLower prefix config (es1 ++ es2)
  = assign_all ToLower prefix (assign_all ToLower prefix config es1) es2.
Proof. unfold assign_all. by rewrite foldl_app. Qed.

End WithCaseMaps.

(** *** The ASCII case maps *)

Lemma lower_byte_not_upper c : is_upper_byte (lower_byte c) = false.
Proof. destruct c as [[] [] [] [] [] [] [] []]; reflexivity. Qed.

Lemma upper_lower_byte c : upper_byte (lower_byte c) = upper_byte c.
Proof. destruct c as [[] [] [] [] [] [] [] []]; reflexivity. Qed.

Lemma ascii_ToLower_no_upper s : has_upper (ascii_ToLower s) = false.
Proof.
  induction s as [|c s IH]; [done |]. cbn.
  by rewrite lower_byte_not_upper, IH.
Qed.

Lemma ascii_ToUpper_of_lower s : ascii_ToUpper (ascii_ToLower s) = ascii_ToUpper s.
Proof.
  induction s as [|c s IH]; [done |]. cbn. by rewrite upper_lower_byte, IH.
Qed.

Lemma map_bytes_app f a b :
  map_bytes f (a +:+ b) = map_bytes f a +:+ map_bytes f b.
Proof.
  induction a as [|c a IH]; [done |].
  rewrite append_cons. cbn [map_bytes]. by rewrite append_cons, IH.
Qed.

End ProviderConfigMoreFacts.

(** * The claims of the design document *)

Import GoStrings ProviderConfig ProviderConfigFacts Inputs.

Section ProviderConfigClaim.
Variables ToUpper ToLower : string → string.

(** C1 (as amended). For every provider name and every process environment
    whose variables beginning with "TRAVIS_WORKER_" + uppercase(P) + "_" all
    contain "=", ProviderConfigFromEnviron returns a map in which a key maps
    to a value exactly when some matching variable has that key (its name
    with the prefix removed, lower-cased) and that value (everything after
    the first "=") and no later matching variable has the same key; when no
    two matching variables share a key, the map has exactly one entry per
    matching variable and no other entry. *)
Theorem C1_config_last_variable_wins (providerName : string) (environ : list string) :
  forallb has_equals (matching (prefix_of ToUpper providerName) environ) = true →
  ∃ m, ProviderConfigFromEnviron ToUpper ToLower environ providerName = Some m
       ∧ last_wins ToLower (prefix_of ToUpper providerName) environ m
       ∧ (NoDup (entry_key ToLower (prefix_of ToUpper providerName)
                   <$> matching (prefix_of ToUpper providerName) environ) →
          one_entry_per_variable ToLower (prefix_of ToUpper providerName) environ m).
Proof.
  intros Hall. set (prefix := prefix_of ToUpper providerName) in *.
  exists (assign_all ToLower prefix ∅ (matching prefix environ)).
  assert (Hlast : last_wins ToLower prefix environ
                    (assign_all ToLower prefix ∅ (matching prefix environ))).
  { intros k v. rewrite assign_all_lookup. split.
    - intros [H | [H _]]; [done | by rewrite lookup_empty in H].
    - intros H. by left. }
  split_and!.
  - unfold ProviderConfigFromEnviron. fold prefix. by apply range_loop_assign.
  - exact Hlast.
  - intros Hnd. split_and!.
    + rewrite assign_all_size; [by rewrite map_size_empty | done |].
      intros e _. apply lookup_empty.
    + intros e He. apply Hlast.
      apply list_elem_of_split in He as (before & after & Heq).
      exists before, e, after. split_and!; [done.. |].
      intros e' He' Hk. rewrite Heq, fmap_app, fmap_cons in Hnd.
      apply NoDup_app in Hnd as (_ & _ & Hnd). apply NoDup_cons in Hnd as [Hne _].
      apply Hne. rewrite <- Hk. by apply list_elem_of_fmap_2.
    + intros k v (before & e & after & Heq & Hk & Hv & _)%Hlast.
      exists e. split_and!; [| done..].
      rewrite Heq. apply elem_of_app. right. by left.
Qed.

End ProviderConfigClaim.

Lemma C1_config_last_variable_wins_witness :
  ∃ m, ProviderConfigFromEnviron ascii_ToUpper ascii_ToLower environ_docker "docker" = Some m
       ∧ last_wins ascii_ToLower (prefix_of ascii_ToUpper "docker") environ_docker m
       ∧ (NoDup (entry_key ascii_ToLower (prefix_of ascii_ToUpper "docker")
                   <$> matching (prefix_of ascii_ToUpper "docker") environ_docker) →
          one_entry_per_variable ascii_ToLower (prefix_of ascii_ToUpper "docker")
            environ_docker m).
Proof.
  apply (C1_config_last_variable_wins ascii_ToUpper ascii_ToLower "docker" environ_docker).
  reflexivity.
Defined.

(** C1 as stated fails: both variables begin with the prefix, but the map
    returned has the single entry "endpoint" with the second one's value. *)
Lemma C1_counterexample_case_clash :
  ProviderConfigFromEnviron ascii_ToUpper ascii_ToLower environ_clash "docker"
    = Some {[ "endpoint" := "tcp://b" ]}
  ∧ ¬ one_entry_per_variable ascii_ToLower (prefix_of ascii_ToUpper "docker")
        environ_clash {[ "endpoint" := "tcp://b" ]}.
Proof.
  split; [by vm_compute |].
  intros (Hsize & _). vm_compute in Hsize. discriminate.
Qed.

(** A matching variable without "=" stops the function with a panic. *)
Example config_panics_without_equals :
  ProviderConfigFromEnviron ascii_ToUpper ascii_ToLower
    ["HOME=/root"; "TRAVIS_WORKER_DOCKER_ENDPOINT"] "docker" = None.
Proof. reflexivity. Qed.

Import Worker Traces Supervisor WorkerFacts SupervisorFacts.

(** C2. Receiving SIGINT makes the handler call the pool's GracefulShutdown,
    receiving SIGTERM makes it fire the top-level cancellation, and each log
    line names the other signal; of the signals relayed to the channel, only
    SIGINT leads to GracefulShutdown and only SIGTERM to the cancellation. *)
Theorem C2_sigint_graceful_sigterm_cancel :
  effects (run [OsSignal SIGINT; HandlerReceives] init)
    = [Log InfoLevel [] "SIGTERM received, starting graceful shutdown";
       PoolGracefulShutdown]
  ∧ effects (run [OsSignal SIGTERM; HandlerReceives] init)
    = [Log InfoLevel [] "SIGINT received, shutting down immediately"; Cancel]
  ∧ ∀ sig,
      (PoolGracefulShutdown ∈ effects (run [OsSignal sig; HandlerReceives] init)
         ↔ sig = SIGINT)
      ∧ (Cancel ∈ effects (run [OsSignal sig; HandlerReceives] init)
         ↔ sig = SIGTERM).
Proof.
  split_and!; [done.. |]. intros sig.
  cbn. unfold relay, registered. cbn.
  case_bool_decide as Hreg; cbn.
  - apply elem_of_cons in Hreg as [-> | Hreg];
      [| apply list_elem_of_singleton in Hreg as ->];
      (split; split; intros H);
      first [ done | by repeat constructor | exfalso; not_in_trace H ].
  - split; split; intros H;
      first [ by apply elem_of_nil in H
            | exfalso; apply Hreg; rewrite H; by repeat constructor ].
Qed.

Section RunWorkerClaims.
Variables ToUpper ToLower : string → string.

(** C3. When the close-notification channel delivers an error, the watcher
    logs it and fires the top-level cancellation, and calls no graceful
    shutdown; when the channel is closed without a value, the watcher does
    nothing. The watcher runs exactly when the dial succeeded. *)
Theorem C3_connection_loss_cancels (err : Error) (w : Externals) :
  effects (run [ConnNotifies (Received err)] init)
    = [Log ErrorLevel ["err"] "amqp connection errored, terminating"; Cancel]
  ∧ (PoolGracefulShutdown ∉ effects (run [ConnNotifies (Received err)] init))
  ∧ effects (run [ConnNotifies ChanClosed] init) = []
  ∧ (Go AmqpCloseWatcher ∈ runWorker ToUpper ToLower w
     ↔ failed (amqp_dial_result w) = false).
Proof.
  split_and!; [done | | done | apply watcher_started_iff_dialled].
  cbn. intros H. not_in_trace H.
Qed.

(** C5 (as amended). On every path of runWorker, amqpConn.Close() is called
    only after pool.Run has returned; and when dialing the broker and
    creating the backend provider both succeed, runWorker returns only after
    pool.Run has returned and, after that, amqpConn.Close() has been
    called. *)
Theorem C5_close_after_run_then_return (w : Externals) :
  only_after PoolRunReturned AmqpConnClose (runWorker ToUpper ToLower w)
  ∧ (failed (amqp_dial_result w) = false →
     failed (new_provider_result w) = false →
     returns_after_run_and_close (runWorker ToUpper ToLower w)).
Proof.
  split; [apply close_only_after_run | apply return_after_run_and_close].
Qed.

(** C6. If dialing the broker fails, runWorker logs the error and returns:
    its trace ends with the dial, the error log line, the deferred log line
    and the return, and nowhere creates the build-script generator, the
    backend provider, the command dispatcher or the processor pool, nor runs
    the pool. *)
Theorem C6_dial_failure_is_fatal (w : Externals) :
  failed (amqp_dial_result w) = true →
  (∃ pre, runWorker ToUpper ToLower w =
     (pre ++ [AmqpDial (AmqpURI (cli_config w));
              Log ErrorLevel ["err"] "couldn't connect to AMQP";
              Log InfoLevel [] "worker finished"; RunWorkerReturns]))
  ∧ forallb (λ e, negb (sets_up_or_runs e)) (runWorker ToUpper ToLower w) = true.
Proof.
  unfold failed.
  destruct (amqp_dial_result w) as [conn [e|]] eqn:Hd; [intros _ | done].
  split.
  - startup_cases w; rewrite Hd; cbn; by apply split_suffix.
  - startup_cases w; rewrite Hd; reflexivity.
Qed.

(** C9. When the configured Sentry DSN is non-empty and creating the hook
    answers an error, runWorker logs the error, then all the same adds the
    hook it was answered (nil on failure) to the global logger, and goes on
    to dial the broker. *)
Theorem C9_failed_sentry_hook_is_added (w : Externals)
    (hook : option SentryHook) (err : Error) :
  SentryDSN (cli_config w) ≠ EmptyString →
  sentry_hook_result w = (hook, Some err) →
  ∃ pre post,
    runWorker ToUpper ToLower w =
      pre ++ [NewSentryHook (SentryDSN (cli_config w))
                [PanicLevel; FatalLevel; ErrorLevel];
              Log ErrorLevel ["err"] "couldn't create sentry hook";
              AddHook hook] ++ post
    ∧ AmqpDial (AmqpURI (cli_config w)) ∈ post.
Proof.
  intros Hdsn%nonempty_true Hhook.
  set (mid := [NewSentryHook _ _; _; _]).
  cut (∃ n, take (length mid) (drop n (runWorker ToUpper ToLower w)) = mid
            ∧ AmqpDial (AmqpURI (cli_config w))
                ∈ drop (n + length mid) (runWorker ToUpper ToLower w)).
  { intros (n & Hmid & Hdial). eexists _, _. split; [| exact Hdial].
    by apply split_infix. }
  subst mid. unfold runWorker, runWorker_prog, runWorker_body.
  rewrite Hdsn, Hhook.
  destruct (nonempty (cli_pprof_port w)), (cli_debug w),
    (nonempty (LibratoEmail (cli_config w))
       && nonempty (LibratoToken (cli_config w))
       && nonempty (LibratoSource (cli_config w)));
    connect_cases ToUpper ToLower w;
    first [ exists 4%nat; split; [reflexivity |]
          | exists 5%nat; split; [reflexivity |]
          | exists 6%nat; split; [reflexivity |] ];
    cbn; by repeat constructor.
Qed.

End RunWorkerClaims.

Lemma C5_close_after_run_then_return_witness :
  returns_after_run_and_close (runWorker ascii_ToUpper ascii_ToLower world_ok).
Proof.
  apply (C5_close_after_run_then_return ascii_ToUpper ascii_ToLower world_ok);
    reflexivity.
Defined.

(** C5 as stated fails where the backend provider cannot be created:
    runWorker returns, and the pool was never run nor the connection
    closed. *)
Lemma C5_counterexample_provider_failure :
  ¬ returns_after_run_and_close
      (runWorker ascii_ToUpper ascii_ToLower world_provider_fails).
Proof.
  intros H.
  assert (Hret : RunWorkerReturns
                   ∈ runWorker ascii_ToUpper ascii_ToLower world_provider_fails).
  { vm_compute. repeat constructor. }
  apply H, sublist_cons_l in Hret as (pre & post & Heq & _).
  assert (Hin : PoolRunReturned
                  ∈ runWorker ascii_ToUpper ascii_ToLower world_provider_fails).
  { rewrite Heq. apply elem_of_app. right. by left. }
  vm_compute in Hin. not_in_trace Hin.
Qed.

Lemma C6_dial_failure_is_fatal_witness :
  (∃ pre, runWorker ascii_ToUpper ascii_ToLower world_dial_fails =
     (pre ++ [AmqpDial (AmqpURI (cli_config world_dial_fails));
              Log ErrorLevel ["err"] "couldn't connect to AMQP";
              Log InfoLevel [] "worker finished"; RunWorkerReturns]))
  ∧ forallb (λ e, negb (sets_up_or_runs e))
      (runWorker ascii_ToUpper ascii_ToLower world_dial_fails) = true.
Proof.
  apply (C6_dial_failure_is_fatal ascii_ToUpper ascii_ToLower world_dial_fails).
  reflexivity.
Defined.

Lemma C9_failed_sentry_hook_is_added_witness :
  ∃ pre post,
    runWorker ascii_ToUpper ascii_ToLower world_sentry_fails =
      pre ++ [NewSentryHook (SentryDSN (cli_config world_sentry_fails))
                [PanicLevel; FatalLevel; ErrorLevel];
              Log ErrorLevel ["err"] "couldn't create sentry hook";
              AddHook None] ++ post
    ∧ AmqpDial (AmqpURI (cli_config world_sentry_fails)) ∈ post.
Proof.
  apply (C9_failed_sentry_hook_is_added ascii_ToUpper ascii_ToLower
           world_sentry_fails None "raven: dsn missing private key").
  - discriminate.
  - reflexivity.
Defined.

(** C10. The signal handler consumes exactly one signal. Once it has
    received a signal and acted, what it did is its body run on the first
    SIGINT or SIGTERM sent to the process, and whatever signals follow
    change nothing; in particular a graceful shutdown it started is never
    followed by the cancellation. *)
Theorem C10_handler_consumes_one_signal (acts later : list Action) :
  forallb is_signal_action acts = true →
  forallb is_signal_action later = true →
  handler (run acts init) = Exited →
  effects (run (acts ++ later) init) = effects (run acts init)
  ∧ (∃ sig, first_signal acts = Some sig
            ∧ effects (run acts init) = signalHandler sig)
  ∧ (PoolGracefulShutdown ∈ effects (run acts init) →
     Cancel ∉ effects (run (acts ++ later) init)).
Proof.
  intros Hacts Hlater Hex.
  destruct (exited_stable later (run acts init) Hlater Hex) as [Heff _].
  pose proof (handler_inv_run acts Hacts) as Hinv.
  unfold handler_inv in Hinv. rewrite Hex in Hinv.
  destruct Hinv as (sig & Hfirst & Hsig).
  rewrite run_app, Heff. split_and!; [done | by exists sig |].
  rewrite Hsig. apply cancel_not_graceful.
Qed.

Lemma C10_handler_consumes_one_signal_witness :
  effects (run ([OsSignal SIGINT; HandlerReceives]
                  ++ [OsSignal SIGTERM; HandlerReceives; OsSignal SIGINT]) init)
    = effects (run [OsSignal SIGINT; HandlerReceives] init)
  ∧ (∃ sig, first_signal [OsSignal SIGINT; HandlerReceives] = Some sig
            ∧ effects (run [OsSignal SIGINT; HandlerReceives] init)
              = signalHandler sig)
  ∧ (PoolGracefulShutdown ∈ effects (run [OsSignal SIGINT; HandlerReceives] init) →
     Cancel ∉ effects (run ([OsSignal SIGINT; HandlerReceives]
                              ++ [OsSignal SIGTERM; HandlerReceives; OsSignal SIGINT])
                         init)).
Proof.
  apply (C10_handler_consumes_one_signal [OsSignal SIGINT; HandlerReceives]
           [OsSignal SIGTERM; HandlerReceives; OsSignal SIGINT]); reflexivity.
Defined.

Import Wire JobQueue JobQueueFacts.

(** C4. In the queue test, the payload published to the declared queue
    decodes to the job with ID 12345 and Number "1"; the processor the
    factory returns is handed exactly that payload, finds it equal to the
    one it wants (it records no error) and terminates successfully; the
    delivery is acknowledged, not rejected; and, the broker having been
    closed, the subscribe call returns. *)
Theorem C4_test_queue_delivers_payload :
  decodePayload test_body = Some {| Job := {| ID := 12345; Number := "1" |} |}
  ∧ returns TestQueue = true
  ∧ ∀ t, merges (threads TestQueue) t →
         t = [Bound 1 {| Job := {| ID := 12345; Number := "1" |} |};
              ProcessorTerminated 1 Success; Settled 1 Ack].
Proof.
  split_and!; [by vm_compute | by vm_compute |].
  intros t Hm. by apply merges_single.
Qed.

Lemma C4_test_queue_delivers_payload_witness :
  merges (threads TestQueue) test_queue_trace
  ∧ test_queue_trace
    = [Bound 1 {| Job := {| ID := 12345; Number := "1" |} |};
       ProcessorTerminated 1 Success; Settled 1 Ack].
Proof.
  assert (Hm : merges (threads TestQueue) test_queue_trace).
  { vm_compute.
    eapply (merges_step _ 0); [reflexivity |].
    eapply (merges_step _ 0); [reflexivity |].
    eapply (merges_step _ 0); [reflexivity |].
    apply merges_done. repeat constructor. }
  split; [exact Hm |].
  exact (proj2 (proj2 C4_test_queue_delivers_payload) test_queue_trace Hm).
Defined.

(** C7. For every delivery consumed from the job queue, the events of its
    lifetime end with one acknowledgment or rejection and hold no other;
    and when a processor was bound to the delivery, that acknowledgment or
    rejection comes right after the processor's termination and follows its
    outcome. *)
Theorem C7_one_settlement_after_termination {Obs : Type}
    (factory : unit → JobPayloadProcessor Obs) (sub : Subscription)
    (cancelled_after : option nat) (t : list (QEvent Obs)) (d : Delivery) :
  NoDup (tag <$> deliveries sub) →
  merges (threads (Subscribe cancelled_after factory sub)) t →
  d ∈ consumed cancelled_after sub →
  ∃ pre s,
    lifetime (tag d) t = pre ++ [Settled (tag d) s]
    ∧ Forall (λ e, is_settled e = false) pre
    ∧ (∀ payload, Bound (tag d) payload ∈ t →
         ∃ pre' outcome,
           pre = pre' ++ [ProcessorTerminated (tag d) outcome]
           ∧ s = settlement_of outcome).
Proof.
  intros Hnd Hm Hd. cbn in Hm.
  apply list_elem_of_lookup in Hd as [k Hk].
  assert (Hnd' : NoDup (tag <$> consumed cancelled_after sub)).
  { destruct cancelled_after as [n|]; cbn; [| done].
    rewrite fmap_take. eapply sublist_NoDup; [done | apply sublist_take]. }
  pose proof (lifetime_is_thread factory _ t k d Hnd' Hm Hk) as Hlife.
  destruct (handle_shape factory d) as (pre & s & Heq & Hpre & Hbound).
  exists pre, s. rewrite Hlife. split_and!; [done.. |].
  intros payload Hin. apply (Hbound payload).
  rewrite <- Hlife. unfold lifetime. by apply list_elem_of_filter.
Qed.

Lemma C7_one_settlement_after_termination_witness :
  ∃ pre s,
    lifetime 1 two_deliveries_trace = pre ++ [Settled 1 s]
    ∧ Forall (λ e, is_settled e = false) pre
    ∧ (∀ payload, Bound 1 payload ∈ two_deliveries_trace →
         ∃ pre' outcome,
           pre = pre' ++ [ProcessorTerminated 1 outcome]
           ∧ s = settlement_of outcome).
Proof.
  apply (C7_one_settlement_after_termination (λ _, testMessageProcessor)
           two_deliveries None two_deliveries_trace
           {| tag := 1; body := test_body |}).
  - apply (bool_decide_unpack _). reflexivity.
  - vm_compute.
    eapply (merges_step _ 0); [reflexivity |].
    eapply (merges_step _ 1); [reflexivity |].
    eapply (merges_step _ 0); [reflexivity |].
    eapply (merges_step _ 0); [reflexivity |].
    apply merges_done. repeat constructor.
  - left.
Defined.

Import Pool PoolFacts.

(** C8. In every state a pool of [poolSize] slots reaches, the processors
    in a non-terminal state are those in the slots and are at most
    [poolSize]; and when the jobs are at most [poolSize], a state is
    reached in which all of them are in slots at once, and in no state
    reached before graceful shutdown does a pending job lack a free slot to
    be claimed by. *)
Theorem C8_pool_size_bounds_processors (poolSize : nat) (jobs : list nat) :
  (∀ acts st, exec acts (start poolSize jobs) = Some st →
     in_flight st = active st ∧ (length (in_flight st) ≤ poolSize)%nat)
  ∧ ((length jobs ≤ poolSize)%nat →
     (∃ st, exec (claim_all (length jobs)) (start poolSize jobs) = Some st
            ∧ job <$> in_flight st = jobs ∧ pending st = [])
     ∧ (∀ acts st, exec acts (start poolSize jobs) = Some st →
          draining st = false → pending st ≠ [] →
          ∃ i, is_Some (step (Claim i) st))).
Proof.
  assert (Hlive : ∀ st, pool_inv poolSize (length jobs) st →
                        in_flight st = active st).
  { intros st [_ Hl _]. unfold in_flight, active.
    by apply filter_Forall, occupied_Forall. }
  split.
  - intros acts st Hexec.
    pose proof (pool_inv_exec _ _ _ _ _ (pool_inv_start poolSize jobs) Hexec)
      as Hinv.
    rewrite (Hlive _ Hinv). split; [done |].
    destruct Hinv as [Hlen _ _]. rewrite <- Hlen. apply occupied_le.
  - intros Hfit. split.
    + pose proof (exec_claims jobs [] poolSize [] Hfit) as Hexec.
      cbn in Hexec. eexists. split; [exact Hexec |].
      split; [| done].
      rewrite Hlive by (eapply pool_inv_exec;
                         [apply pool_inv_start | exact Hexec]).
      unfold active. cbn. rewrite occupied_filled, <- list_fmap_compose.
      apply list_fmap_id.
    + intros acts st Hexec Hdr Hpend.
      pose proof (pool_inv_exec _ _ _ _ _ (pool_inv_start poolSize jobs) Hexec)
        as [Hlen _ Hjobs].
      destruct (pending st) as [|j rest] eqn:Hp; [done |].
      destruct (free_slot_exists (slots st)) as [i Hi].
      { unfold active in Hjobs. cbn in Hjobs. lia. }
      exists i. cbn. by rewrite Hdr, Hi, Hp.
Qed.

Lemma C8_pool_size_bounds_processors_witness :
  (∃ st, exec (claim_all 2) (start 2 [7; 8]%nat) = Some st
         ∧ job <$> in_flight st = [7; 8]%nat ∧ pending st = [])
  ∧ (∀ acts st, exec acts (start 2 [7; 8]%nat) = Some st →
       draining st = false → pending st ≠ [] →
       ∃ i, is_Some (step (Claim i) st)).
Proof.
  apply (C8_pool_size_bounds_processors 2 [7; 8]%nat). cbn. lia.
Defined.

(** * Further properties of the code *)

Import GoStrings ProviderConfig ProviderConfigFacts Inputs.
Import ProviderConfigMore ProviderConfigMoreFacts MoreInputs.

Section ProviderConfigProperties.
Variables ToUpper ToLower : string → string.

(** X1. ProviderConfigFromEnviron panics exactly when some environment entry
    begins with the prefix and holds no "=". *)
Theorem X1_config_panics_iff_no_equals (providerName : string)
    (environ : list string) :
  ProviderConfigFromEnviron ToUpper ToLower environ providerName = None
  ↔ ∃ e, e ∈ environ
         ∧ HasPrefix e (prefix_of ToUpper providerName) = true
         ∧ has_equals e = false.
Proof. apply range_loop_None. Qed.

(** X2. Entries that do not begin with the prefix are ignored: dropping
    them from the environment changes nothing, and the result is the empty
    map exactly when no entry begins with the prefix. *)
Theorem X2_config_ignores_other_variables (providerName : string)
    (environ : list string) :
  ProviderConfigFromEnviron ToUpper ToLower
      (matching (prefix_of ToUpper providerName) environ) providerName
    = ProviderConfigFromEnviron ToUpper ToLower environ providerName
  ∧ (ProviderConfigFromEnviron ToUpper ToLower environ providerName = Some ∅
     ↔ ∀ e, e ∈ environ → HasPrefix e (prefix_of ToUpper providerName) = false).
Proof.
  split; [apply range_loop_matching |].
  unfold ProviderConfigFromEnviron. set (prefix := prefix_of ToUpper providerName).
  split.
  - intros H e He. destruct (HasPrefix e prefix) eqn:Hp; [| done].
    apply range_loop_Some in H.
    assert (Hin : e ∈ matching prefix environ) by by apply elem_of_matching.
    destruct (matching prefix environ) as [|x es _] using rev_ind.
    + by apply elem_of_nil in Hin.
    + rewrite assign_all_snoc in H. symmetry in H.
      by apply insert_non_empty in H.
  - intros H. rewrite <- range_loop_matching, (matching_none _ _ H). done.
Qed.

(** X3. Reading an environment in two parts: when neither part panics, the
    map of the whole is the map of the second part laid over the map of the
    first, so that later variables override earlier ones. *)
Theorem X3_config_of_appended_environments (providerName : string)
    (env1 env2 : list string) (m1 m2 : gmap string string) :
  ProviderConfigFromEnviron ToUpper ToLower env1 providerName = Some m1 →
  ProviderConfigFromEnviron ToUpper ToLower env2 providerName = Some m2 →
  ProviderConfigFromEnviron ToUpper ToLower (env1 ++ env2) providerName
    = Some (m2 ∪ m1).
Proof.
  unfold ProviderConfigFromEnviron. set (prefix := prefix_of ToUpper providerName).
  intros H1 H2. rewrite range_loop_app, H1. cbn.
  destruct (range_loop ToLower prefix m1 env2) as [m|] eqn:H.
  - apply range_loop_Some in H as ->. apply range_loop_Some in H2 as ->.
    by rewrite assign_all_union.
  - apply range_loop_None in H as (e & He & Hp & Hne).
    assert (range_loop ToLower prefix ∅ env2 = None) as Hnone; [| congruence].
    apply range_loop_None. by exists e.
Qed.

(** X4. A variable set last in the environment, made of the prefix, a name
    without "=", "=" and a value, puts the value, verbatim, under the
    lower-cased name into the map of the environment before it (given the
    prefix holds no "="); if that environment panics, so does the whole. *)
Theorem X4_config_last_variable_is_inserted (providerName : string)
    (environ : list string) (name value : string) :
  has_equals (prefix_of ToUpper providerName) = false →
  has_equals name = false →
  ProviderConfigFromEnviron ToUpper ToLower
      (environ ++ [variable (prefix_of ToUpper providerName +:+ name) value])
      providerName
    = (λ m, <[ToLower name := value]> m)
        <$> ProviderConfigFromEnviron ToUpper ToLower environ providerName.
Proof.
  unfold ProviderConfigFromEnviron. set (prefix := prefix_of ToUpper providerName).
  intros Hp Hn. rewrite range_loop_app.
  destruct (range_loop ToLower prefix ∅ environ) as [m|]; [| done].
  cbn. by rewrite loop_body_variable.
Qed.

(** X8. Every entry of the map comes from the environment: its value is
    what follows the first "=" of an entry that begins with the prefix, and
    its key is that entry's name, the prefix trimmed off, lower-cased. *)
Theorem X8_config_entries_come_from_environ (providerName : string)
    (environ : list string) (m : gmap string string) (k v : string) :
  ProviderConfigFromEnviron ToUpper ToLower environ providerName = Some m →
  m !! k = Some v →
  ∃ name, variable name v ∈ environ
          ∧ HasPrefix (variable name v) (prefix_of ToUpper providerName) = true
          ∧ has_equals name = false
          ∧ k = ToLower (TrimPrefix name (prefix_of ToUpper providerName)).
Proof.
  unfold ProviderConfigFromEnviron. set (prefix := prefix_of ToUpper providerName).
  intros H Hk.
  assert (Hsome : ∀ e, e ∈ environ → HasPrefix e prefix = true →
                       has_equals e = true).
  { intros e He Hp. destruct (has_equals e) eqn:Heq; [done |].
    assert (range_loop ToLower prefix ∅ environ = None); [| congruence].
    apply range_loop_None. by exists e. }
  apply range_loop_Some in H as ->.
  apply assign_all_lookup in Hk as [(before & e & after & Heq & Hkey & Hv & _) | [Hk _]];
    [| by rewrite lookup_empty in Hk].
  assert (He : e ∈ matching prefix environ).
  { rewrite Heq. apply elem_of_app. right. by left. }
  apply elem_of_matching in He as [He Hp].
  specialize (Hsome e He Hp).
  unfold has_equals, entry_key, var_name, var_value in *.
  destruct (cut "="%char e) as [[a b]|] eqn:Hcut; [| done].
  apply cut_Some in Hcut as [-> Ha]. subst b.
  exists a. split_and!; [done | done | by rewrite Ha | done].
Qed.

End ProviderConfigProperties.

Section ProviderConfigCase.
Variables ToUpper ToLower : string → string.

(** X5. With the ASCII lower-casing, no key of the map holds an upper-case
    letter. *)
Theorem X5_config_keys_are_lower_case (providerName : string)
    (environ : list string) (m : gmap string string) (k v : string) :
  ProviderConfigFromEnviron ToUpper ascii_ToLower environ providerName = Some m →
  m !! k = Some v →
  has_upper k = false.
Proof.
  unfold ProviderConfigFromEnviron. intros H Hk.
  apply range_loop_Some in H as ->.
  apply assign_all_lookup in Hk as [(_ & e & _ & _ & <- & _) | [Hk _]];
    [| by rewrite lookup_empty in Hk].
  apply ascii_ToLower_no_upper.
Qed.

(** X6. With the ASCII upper-casing, the letter case of the provider name
    does not matter: names equal up to case read the same map. *)
Theorem X6_config_provider_name_case_insensitive (p1 p2 : string)
    (environ : list string) :
  ascii_ToLower p1 = ascii_ToLower p2 →
  ProviderConfigFromEnviron ascii_ToUpper ToLower environ p1
    = ProviderConfigFromEnviron ascii_ToUpper ToLower environ p2.
Proof.
  intros H. unfold ProviderConfigFromEnviron, prefix_of.
  by rewrite <- (ascii_ToUpper_of_lower p1), H, ascii_ToUpper_of_lower.
Qed.

(** X7. Provider names overlap: every environment entry read for the
    provider named p_q is also read for the provider named p. *)
Theorem X7_config_provider_names_overlap (p q e : string)
    (environ : list string) :
  e ∈ matching (prefix_of ascii_ToUpper (p +:+ "_" +:+ q)) environ →
  e ∈ matching (prefix_of ascii_ToUpper p) environ.
Proof.
  rewrite !elem_of_matching. intros [He Hp]. split; [done |].
  apply (HasPrefix_shorter _ _ (ascii_ToUpper q +:+ "_")).
  revert Hp. unfold prefix_of, ascii_ToUpper.
  rewrite map_bytes_app.
  change (map_bytes upper_byte ("_" +:+ q)) with ("_" +:+ map_bytes upper_byte q).
  by rewrite !append_assoc.
Qed.

End ProviderConfigCase.

Lemma X3_config_of_appended_environments_witness :
  ProviderConfigFromEnviron ascii_ToUpper ascii_ToLower
      (environ_first ++ environ_second) "docker"
    = Some ({[ "endpoint" := "tcp://b" ]}
              ∪ {[ "endpoint" := "tcp://a"; "cpus" := "2" ]}).
Proof.
  apply (X3_config_of_appended_environments ascii_ToUpper ascii_ToLower "docker"
           environ_first environ_second); by vm_compute.
Defined.

Lemma X4_config_last_variable_is_inserted_witness :
  ProviderConfigFromEnviron ascii_ToUpper ascii_ToLower
      (environ_docker
         ++ [variable (prefix_of ascii_ToUpper "docker" +:+ "Memory") "1g=x"])
      "docker"
    = (λ m, <[ascii_ToLower "Memory" := "1g=x"]> m)
        <$> ProviderConfigFromEnviron ascii_ToUpper ascii_ToLower
              environ_docker "docker".
Proof.
  apply (X4_config_last_variable_is_inserted ascii_ToUpper ascii_ToLower
           "docker" environ_docker "Memory" "1g=x"); reflexivity.
Defined.

Lemma X8_config_entries_come_from_environ_witness :
  ∃ name, variable name "2" ∈ environ_docker
          ∧ HasPrefix (variable name "2") (prefix_of ascii_ToUpper "docker") = true
          ∧ has_equals name = false
          ∧ "cpus" = ascii_ToLower (TrimPrefix name (prefix_of ascii_ToUpper "docker")).
Proof.
  apply (X8_config_entries_come_from_environ ascii_ToUpper ascii_ToLower
           "docker" environ_docker
           {[ "endpoint" := "tcp://localhost:4243"; "cpus" := "2" ]} "cpus" "2");
    by vm_compute.
Defined.

Lemma X5_config_keys_are_lower_case_witness : has_upper "endpoint" = false.
Proof.
  apply (X5_config_keys_are_lower_case ascii_ToUpper "docker" environ_clash
           {[ "endpoint" := "tcp://b" ]} "endpoint" "tcp://b"); by vm_compute.
Defined.

Lemma X6_config_provider_name_case_insensitive_witness :
  ProviderConfigFromEnviron ascii_ToUpper ascii_ToLower environ_docker "Docker"
    = ProviderConfigFromEnviron ascii_ToUpper ascii_ToLower environ_docker "docker".
Proof.
  apply (X6_config_provider_name_case_insensitive ascii_ToLower "Docker" "docker"
           environ_docker). reflexivity.
Defined.

Lemma X7_config_provider_names_overlap_witness :
  "TRAVIS_WORKER_BLUE_BOX_API_KEY=k"
    ∈ matching (prefix_of ascii_ToUpper "blue")
        ["HOME=/root"; "TRAVIS_WORKER_BLUE_BOX_API_KEY=k"].
Proof.
  apply (X7_config_provider_names_overlap "blue" "box").
  vm_compute. repeat constructor.
Defined.

Import GoStrings ProviderConfig ProviderConfigFacts Inputs.
Import ProviderConfigMore ProviderConfigMoreFacts MoreInputs.
Import Worker Traces WorkerFacts MoreTraces.

(** Membership of an event in a trace written out: the positions where the
    event differs are dismissed, the others are left with the equation. *)
Ltac find_in_trace H :=
  repeat (apply elem_of_cons in H as [H | H]; [try discriminate H |]);
  try (by apply elem_of_nil in H).

(** Case analysis over what the part up to the dial reads. *)
Ltac startup_part_cases w :=
  unfold startup_part, pprof_part, debug_part, sentry_part, metrics_part,
    librato_configured, failed;
  destruct (nonempty (cli_pprof_port w)), (cli_debug w),
    (nonempty (LibratoEmail (cli_config w))
       && nonempty (LibratoToken (cli_config w))
       && nonempty (LibratoSource (cli_config w)));
  (destruct (nonempty (SentryDSN (cli_config w)));
   [destruct (sentry_hook_result w) as [? [?|]] |]).

(** ... and over what the part after the dial is answered. *)
Ltac connect_part_cases read w :=
  unfold connect_part, pool_part, finish_part, failed;
  destruct (amqp_dial_result w) as [? [?|]];
  [| destruct read;
     [destruct (new_provider_result w) as [? [?|]];
      [| destruct (pool_run_returns w);
         [destruct (amqp_close_result w) |]] |]].

Section RunWorkerParts.
Variables ToUpper ToLower : string → string.

(** The trace of runWorker is the part up to the dial followed by the part
    after it. *)
Lemma runWorker_parts (w : Externals) :
  runWorker ToUpper ToLower w
  = startup_part w
      ++ connect_part (ProviderConfigFromEnviron ToUpper ToLower (os_environ w)
                         (ProviderName (cli_config w))) w.
Proof.
  unfold startup_part, pprof_part, debug_part, sentry_part, metrics_part,
    librato_configured, connect_part, pool_part, finish_part, failed.
  startup_cases w; connect_cases ToUpper ToLower w; reflexivity.
Qed.

Lemma startup_part_kind (w : Externals) (e : Event) :
  e ∈ startup_part w → connect_only e = false.
Proof. startup_part_cases w; cbn; intros H; find_in_trace H; by subst. Qed.

Lemma connect_part_kind read (w : Externals) (e : Event) :
  e ∈ connect_part read w → startup_only e = false.
Proof. connect_part_cases read w; cbn; intros H; find_in_trace H; by subst. Qed.

Lemma in_startup (w : Externals) (e : Event) :
  startup_only e = true →
  e ∈ runWorker ToUpper ToLower w ↔ e ∈ startup_part w.
Proof.
  intros He. rewrite runWorker_parts, elem_of_app. split; [| by left].
  intros [H | H]; [done |]. apply connect_part_kind in H. congruence.
Qed.

Lemma in_connect (w : Externals) (e : Event) :
  connect_only e = true →
  e ∈ runWorker ToUpper ToLower w
  ↔ e ∈ connect_part (ProviderConfigFromEnviron ToUpper ToLower (os_environ w)
                        (ProviderName (cli_config w))) w.
Proof.
  intros He. rewrite runWorker_parts, elem_of_app. split; [| by right].
  intros [H | H]; [| done]. apply startup_part_kind in H. congruence.
Qed.

Lemma startup_part_ends_with_dial (w : Externals) :
  ∃ pre, startup_part w = pre ++ [AmqpDial (AmqpURI (cli_config w))].
Proof.
  unfold startup_part.
  exists ([WithCancel; SetFormatter] ++ pprof_part w ++ debug_part w
            ++ [Log InfoLevel [] "worker started";
                Log DebugLevel ["config"] "read config"]
            ++ sentry_part w ++ metrics_part w).
  by rewrite <- !app_assoc.
Qed.

Lemma startup_part_logs (w : Externals) :
  Log InfoLevel [] "worker started" ∈ startup_part w
  ∧ Log InfoLevel [] "worker finished" ∉ startup_part w.
Proof.
  split.
  - unfold startup_part. rewrite !elem_of_app. do 3 right. left. by left.
  - startup_part_cases w; cbn; intros Hin; not_in_trace Hin.
Qed.

Lemma filter_none {A} (P : A → Prop) `{!∀ x, Decision (P x)} (l : list A) :
  (∀ x, x ∈ l → ¬ P x) → filter P l = [].
Proof.
  induction l as [|x l IH]; intros Hno; [done |].
  rewrite filter_cons_False by (apply Hno; by left).
  apply IH. intros y Hy. apply Hno. by right.
Qed.

End RunWorkerParts.

Section RunWorkerProperties.
Variables ToUpper ToLower : string → string.

Local Abbreviation read w :=
  (ProviderConfigFromEnviron ToUpper ToLower (os_environ w)
     (ProviderName (cli_config w))).

(** X9. runWorker always logs "worker started". It leaves in one of three
    ways: it returns, "worker finished" being logged last; it panics,
    "worker finished" being logged last all the same; or it stays in the
    pool's run, and then neither logs "worker finished" nor returns. *)
Theorem X9_runWorker_logs_start_and_finish (w : Externals) :
  (Log InfoLevel [] "worker started" ∈ runWorker ToUpper ToLower w)
  ∧ ((∃ pre, runWorker ToUpper ToLower w
             = (pre ++ [Log InfoLevel [] "worker finished"; RunWorkerReturns]))
     ∨ (∃ pre, runWorker ToUpper ToLower w
               = (pre ++ [Log InfoLevel [] "worker finished"; RunWorkerPanics]))
     ∨ (pool_run_returns w = false
        ∧ (∃ pre, runWorker ToUpper ToLower w
                  = (pre ++ [PoolRun (PoolSize (cli_config w))
                                     (QueueName (cli_config w))]))
        ∧ (Log InfoLevel [] "worker finished" ∉ runWorker ToUpper ToLower w)
        ∧ (RunWorkerReturns ∉ runWorker ToUpper ToLower w))).
Proof.
  destruct (startup_part_logs w) as [Hstart Hfin].
  rewrite runWorker_parts. split; [apply elem_of_app; by left |].
  assert (Hsuf : ∀ (a b suf : list Event),
            (∃ pre, b = pre ++ suf) → ∃ pre, a ++ b = pre ++ suf).
  { intros a b suf [pre ->]. exists (a ++ pre). by rewrite app_assoc. }
  connect_part_cases (read w) w;
    first
      [ left; apply Hsuf; by apply split_suffix
      | right; left; apply Hsuf; by apply split_suffix
      | right; right; split_and!;
        [ done | apply Hsuf; by apply split_suffix
        | intros [H | H]%elem_of_app; [done | not_in_trace H]
        | intros [H | H]%elem_of_app;
          [by apply startup_part_kind in H | not_in_trace H] ] ].
Qed.

(** X10. When the broker is dialled and the backend provider cannot be
    created, runWorker logs the error and returns right after the creation
    attempt: the connection watcher is running, yet no command dispatcher,
    pool or signal handler is ever set up and the connection is not
    closed. *)
Theorem X10_provider_failure_leaves_connection_open (w : Externals)
    (cfg : gmap string string) :
  failed (amqp_dial_result w) = false →
  ProviderConfigFromEnviron ToUpper ToLower (os_environ w)
    (ProviderName (cli_config w)) = Some cfg →
  failed (new_provider_result w) = true →
  (∃ pre, runWorker ToUpper ToLower w
          = (pre ++ [NewProvider (ProviderName (cli_config w)) cfg;
                     Log ErrorLevel ["err"] "couldn't create backend provider";
                     Log InfoLevel [] "worker finished"; RunWorkerReturns]))
  ∧ Go AmqpCloseWatcher ∈ runWorker ToUpper ToLower w
  ∧ forallb (λ e, negb (needs_provider e)) (runWorker ToUpper ToLower w) = true.
Proof.
  intros Hd Hc Hp. rewrite runWorker_parts, Hc.
  unfold connect_part. rewrite Hd, Hp. unfold finish_part. split_and!.
  - eexists (startup_part w ++ [_; _; _]). by rewrite <- app_assoc.
  - apply elem_of_app. right. by left.
  - rewrite forallb_app. apply andb_true_intro. split; [| done].
    apply forallb_forall. intros e He%list_elem_of_In%startup_part_kind.
    destruct e as [| |[]| | | | | | | | | | | | | | | | | |]; done.
Qed.

(** X11. When the broker is dialled and an environment entry begins with the
    provider's prefix and holds no "=", runWorker panics while reading the
    provider's settings: the build-script generator has been created, the
    deferred line is logged, and neither a provider nor anything after it is
    ever set up. *)
Theorem X11_malformed_environment_panics (w : Externals) (e : string) :
  failed (amqp_dial_result w) = false →
  e ∈ os_environ w →
  HasPrefix e (prefix_of ToUpper (ProviderName (cli_config w))) = true →
  has_equals e = false →
  (∃ pre, runWorker ToUpper ToLower w
          = (pre ++ [NewBuildScriptGenerator;
                     Log InfoLevel [] "worker finished"; RunWorkerPanics]))
  ∧ forallb (λ e, negb (creates_provider e || needs_provider e))
      (runWorker ToUpper ToLower w) = true.
Proof.
  intros Hd He Hp Hne.
  assert (Hnone : read w = None).
  { apply range_loop_None. by exists e. }
  rewrite runWorker_parts, Hnone. unfold connect_part. rewrite Hd. split.
  - eexists (startup_part w ++ [_; _]). by rewrite <- app_assoc.
  - rewrite forallb_app. apply andb_true_intro. split; [| done].
    apply forallb_forall. intros x Hx%list_elem_of_In%startup_part_kind.
    destruct x as [| |[]| | | | | | | | | | | | | | | | | |]; done.
Qed.

(** X12. Exactly one metrics reporter is started: the Librato reporter,
    with the configured account, when email, token and source are all
    non-empty, and the logging reporter otherwise. *)
Theorem X12_one_metrics_reporter (w : Externals) :
  (Go (LibratoReporter (LibratoEmail (cli_config w)) (LibratoToken (cli_config w))
         (LibratoSource (cli_config w))) ∈ runWorker ToUpper ToLower w
   ↔ librato_configured (cli_config w) = true)
  ∧ (Go MetricsLogReporter ∈ runWorker ToUpper ToLower w
     ↔ librato_configured (cli_config w) = false)
  ∧ (∀ email token source,
       Go (LibratoReporter email token source) ∈ runWorker ToUpper ToLower w →
       email = LibratoEmail (cli_config w)
       ∧ token = LibratoToken (cli_config w)
       ∧ source = LibratoSource (cli_config w)).
Proof.
  split_and!; [| | intros email token source]; rewrite in_startup by done;
    startup_part_cases w; cbn;
    first
      [ intros H; find_in_trace H; by simplify_eq
      | split; intros H; first [done | by repeat constructor | not_in_trace H] ].
Qed.

(** X13. A Sentry hook is created and added only when a DSN is configured:
    then it is created once for the panic, fatal and error levels, and what
    was created is what is added; without a DSN neither happens. *)
Theorem X13_sentry_hook_only_with_dsn (w : Externals) :
  (∀ hook, AddHook hook ∈ runWorker ToUpper ToLower w
           ↔ nonempty (SentryDSN (cli_config w)) = true
             ∧ hook = fst (sentry_hook_result w))
  ∧ (∀ dsn levels, NewSentryHook dsn levels ∈ runWorker ToUpper ToLower w
                   ↔ nonempty (SentryDSN (cli_config w)) = true
                     ∧ dsn = SentryDSN (cli_config w)
                     ∧ levels = [PanicLevel; FatalLevel; ErrorLevel]).
Proof.
  split; [intros hook | intros dsn levels]; rewrite in_startup by done;
    startup_part_cases w; cbn;
    (split;
     [ intros H; find_in_trace H; by simplify_eq
     | intros H; destruct_and!; simplify_eq/=;
       first [done | by repeat constructor] ]).
Qed.

(** X14. Whenever the pool is run, it is run with the configured size and
    queue name, the dial and the provider creation have succeeded, and
    everything from the dial on has been set up before, in source order:
    the connection watcher, the generator, the provider, the command
    dispatcher and its goroutine, the pool and its log-timeout setting, the
    signal registration and the signal handler. *)
Theorem X14_pool_runs_after_setup (w : Externals) (n : Z) (q : string) :
  PoolRun n q ∈ runWorker ToUpper ToLower w →
  n = PoolSize (cli_config w) ∧ q = QueueName (cli_config w)
  ∧ failed (amqp_dial_result w) = false
  ∧ failed (new_provider_result w) = false
  ∧ ∃ cfg, ProviderConfigFromEnviron ToUpper ToLower (os_environ w)
             (ProviderName (cli_config w)) = Some cfg
           ∧ setup_sequence (cli_config w) cfg
               `sublist_of` runWorker ToUpper ToLower w.
Proof.
  rewrite in_connect by done. rewrite runWorker_parts.
  destruct (startup_part_ends_with_dial w) as [pre ->].
  unfold setup_sequence.
  connect_part_cases (read w) w; cbn; intros H; find_in_trace H; simplify_eq;
    (split_and!; [done.. |]; eexists; split; [done |];
     rewrite <- app_assoc; apply sublist_inserts_l; by repeat constructor).
Qed.

(** X15. Whenever a backend provider is created, it is created under the
    configured provider name and with exactly the settings
    ProviderConfigFromEnviron reads for that name from the environment. *)
Theorem X15_provider_gets_environment_settings (w : Externals)
    (name : string) (cfg : gmap string string) :
  NewProvider name cfg ∈ runWorker ToUpper ToLower w →
  name = ProviderName (cli_config w)
  ∧ ProviderConfigFromEnviron ToUpper ToLower (os_environ w)
      (ProviderName (cli_config w)) = Some cfg.
Proof.
  rewrite in_connect by done.
  connect_part_cases (read w) w; cbn; intros H; find_in_trace H; by simplify_eq.
Qed.

(** X16. The profiling server is started exactly when a pprof port is
    given, and then on localhost at that port; the log level is set, to
    debug, exactly when the debug flag is set. *)
Theorem X16_pprof_and_debug_are_optional (w : Externals) :
  (∀ addr, Go (PprofServer addr) ∈ runWorker ToUpper ToLower w
           ↔ nonempty (cli_pprof_port w) = true
             ∧ addr = "localhost:" +:+ cli_pprof_port w)
  ∧ (∀ lvl, SetLevel lvl ∈ runWorker ToUpper ToLower w
            ↔ cli_debug w = true ∧ lvl = DebugLevel).
Proof.
  split; [intros addr | intros lvl]; rewrite in_startup by done;
    startup_part_cases w; cbn;
    (split;
     [ intros H; find_in_trace H; by simplify_eq
     | intros H; destruct_and!; simplify_eq/=;
       first [done | by repeat constructor] ]).
Qed.

(** X17. The broker connection is closed exactly when the dial succeeded,
    the provider's settings were read, the provider was created and the
    pool's run returned; and it is never closed twice. *)
Theorem X17_connection_closed_iff_pool_returned (w : Externals) :
  (AmqpConnClose ∈ runWorker ToUpper ToLower w
   ↔ failed (amqp_dial_result w) = false
     ∧ ProviderConfigFromEnviron ToUpper ToLower (os_environ w)
         (ProviderName (cli_config w)) ≠ None
     ∧ failed (new_provider_result w) = false
     ∧ pool_run_returns w = true)
  ∧ (length (filter (λ e, e = AmqpConnClose) (runWorker ToUpper ToLower w))
     ≤ 1)%nat.
Proof.
  split.
  - rewrite in_connect by done.
    connect_part_cases (read w) w; cbn;
      (split; intros H;
       [ first [ by exfalso; not_in_trace H | done ]
       | destruct_and!; first [done | by repeat constructor] ]).
  - rewrite runWorker_parts, filter_app, length_app.
    rewrite (filter_none _ (startup_part w)).
    + connect_part_cases (read w) w; apply Nat.leb_le; reflexivity.
    + intros e He%startup_part_kind ->. done.
Qed.

End RunWorkerProperties.

Lemma X10_provider_failure_leaves_connection_open_witness :
  (∃ pre, runWorker ascii_ToUpper ascii_ToLower world_provider_fails
          = (pre ++ [NewProvider "docker"
                       {[ "endpoint" := "tcp://localhost:4243"; "cpus" := "2" ]};
                     Log ErrorLevel ["err"] "couldn't create backend provider";
                     Log InfoLevel [] "worker finished"; RunWorkerReturns]))
  ∧ Go AmqpCloseWatcher ∈ runWorker ascii_ToUpper ascii_ToLower world_provider_fails
  ∧ forallb (λ e, negb (needs_provider e))
      (runWorker ascii_ToUpper ascii_ToLower world_provider_fails) = true.
Proof.
  apply (X10_provider_failure_leaves_connection_open ascii_ToUpper ascii_ToLower
           world_provider_fails); by vm_compute.
Defined.

Lemma X11_malformed_environment_panics_witness :
  (∃ pre, runWorker ascii_ToUpper ascii_ToLower world_malformed_environ
          = (pre ++ [NewBuildScriptGenerator;
                     Log InfoLevel [] "worker finished"; RunWorkerPanics]))
  ∧ forallb (λ e, negb (creates_provider e || needs_provider e))
      (runWorker ascii_ToUpper ascii_ToLower world_malformed_environ) = true.
Proof.
  apply (X11_malformed_environment_panics ascii_ToUpper ascii_ToLower
           world_malformed_environ "TRAVIS_WORKER_DOCKER_ENDPOINT").
  - reflexivity.
  - right. left.
  - reflexivity.
  - reflexivity.
Defined.

Lemma X14_pool_runs_after_setup_witness :
  2%Z = PoolSize (cli_config world_ok)
  ∧ "builds.linux" = QueueName (cli_config world_ok)
  ∧ failed (amqp_dial_result world_ok) = false
  ∧ failed (new_provider_result world_ok) = false
  ∧ ∃ cfg, ProviderConfigFromEnviron ascii_ToUpper ascii_ToLower
             (os_environ world_ok) (ProviderName (cli_config world_ok)) = Some cfg
           ∧ setup_sequence (cli_config world_ok) cfg
               `sublist_of` runWorker ascii_ToUpper ascii_ToLower world_ok.
Proof.
  apply (X14_pool_runs_after_setup ascii_ToUpper ascii_ToLower world_ok).
  vm_compute. repeat constructor.
Defined.

Lemma X15_provider_gets_environment_settings_witness :
  "docker" = ProviderName (cli_config world_ok)
  ∧ ProviderConfigFromEnviron ascii_ToUpper ascii_ToLower
      (os_environ world_ok) (ProviderName (cli_config world_ok))
    = Some {[ "endpoint" := "tcp://localhost:4243"; "cpus" := "2" ]}.
Proof.
  apply (X15_provider_gets_environment_settings ascii_ToUpper ascii_ToLower
           world_ok).
  vm_compute. repeat constructor.
Defined.

Lemma X12_one_metrics_reporter_witness :
  "ops@example.org" = LibratoEmail (cli_config world_librato)
  ∧ "t0ken" = LibratoToken (cli_config world_librato)
  ∧ "worker-1" = LibratoSource (cli_config world_librato).
Proof.
  apply (proj2 (proj2 (X12_one_metrics_reporter ascii_ToUpper ascii_ToLower
                         world_librato))).
  vm_compute. repeat constructor.
Defined.

(** * Further properties of the signal channel and the goroutines *)
Module MoreSupervisorFacts.
Import Worker Supervisor SupervisorFacts MoreSupervisor.

Lemma count_app kind t1 t2 : count kind (t1 ++ t2) = (count kind t1 + count kind t2)%nat.
Proof. unfold count. by rewrite List.filter_app, length_app. Qed.

Lemma count_signalHandler sig :
  (count is_graceful (signalHandler sig) ≤ 1)%nat
  ∧ (count is_cancel (signalHandler sig) ≤ 1)%nat.
Proof. unfold signalHandler. case_decide; cbn; lia. Qed.

Lemma count_amqpCloseWatcher r :
  count is_graceful (amqpCloseWatcher r) = 0%nat
  ∧ (count is_cancel (amqpCloseWatcher r) ≤ 1)%nat.
Proof. destruct r; cbn; lia. Qed.

Lemma supervisor_inv_init : supervisor_inv init.
Proof. split; cbn; [lia | constructor | lia | lia]. Qed.

Lemma supervisor_inv_step st a : supervisor_inv st → supervisor_inv (step st a).
Proof.
  intros Hst. pose proof Hst as [Hcap Hreg Hgr Hca].
  destruct a as [sig| |r]; cbn [step].
  - unfold relay. case_bool_decide as Hsig; [| done].
    destruct (length (signalChan st) <? signalChan_capacity)%nat eqn:Hlt;
      [| done].
    apply Nat.ltb_lt in Hlt. split; cbn; [| | done..].
    + rewrite length_app. cbn. lia.
    + apply Forall_app. split; [done |]. by constructor.
  - unfold handler_step.
    destruct (handler st) eqn:Hh; [| done].
    destruct (signalChan st) as [|sig rest] eqn:Hch; [done |].
    destruct (count_signalHandler sig) as [Hg Hc].
    cbn [has_run length] in *.
    split; cbn [signalChan handler watcher effects has_run length].
    + lia.
    + by apply Forall_cons in Hreg as [_ ?].
    + rewrite count_app. lia.
    + rewrite count_app. lia.
  - unfold watcher_step.
    destruct (watcher st) eqn:Hw; [| done].
    destruct (count_amqpCloseWatcher r) as [Hg Hc].
    cbn [has_run] in *.
    split; cbn [signalChan handler watcher effects has_run]; [done.. | |].
    + rewrite count_app. lia.
    + rewrite count_app. lia.
Qed.

Lemma supervisor_inv_run acts : supervisor_inv (run acts init).
Proof.
  induction acts as [|a acts IH] using rev_ind; [apply supervisor_inv_init |].
  rewrite run_snoc. by apply supervisor_inv_step.
Qed.

(** Signals leave the watcher waiting. *)
Lemma watcher_waits acts :
  forallb is_signal_action acts = true → watcher (run acts init) = Waiting.
Proof.
  induction acts as [|a acts IH] using rev_ind; intros Hsig; [done |].
  rewrite forallb_app in Hsig. apply andb_prop in Hsig as [Hacts Ha].
  specialize (IH Hacts). rewrite run_snoc.
  destruct a as [sig| |r]; [| | discriminate]; cbn [step].
  - unfold relay. case_bool_decide; [destruct (_ <? _)%nat |]; done.
  - unfold handler_step.
    destruct (handler (run acts init)), (signalChan (run acts init)); done.
Qed.

End MoreSupervisorFacts.

Import Worker Supervisor SupervisorFacts MoreSupervisor MoreSupervisorFacts.

(** X18. Whatever signals arrive and whenever the goroutines run, the
    signal channel never holds more than the one signal it has room for,
    and only SIGTERM or SIGINT. *)
Theorem X18_signal_channel_holds_one (acts : list Action) :
  (length (signalChan (run acts init)) ≤ 1)%nat
  ∧ Forall (λ sig, sig = SIGTERM ∨ sig = SIGINT) (signalChan (run acts init)).
Proof.
  destruct (supervisor_inv_run acts) as [Hcap Hreg _ _]. split; [done |].
  eapply Forall_impl; [exact Hreg |]. intros sig Hsig. cbn in Hsig.
  apply elem_of_cons in Hsig as [-> | Hsig]; [by left |].
  apply list_elem_of_singleton in Hsig as ->. by right.
Qed.

(** X19. In every interleaving of signals, connection notifications and
    goroutine steps, the pool's graceful shutdown is called at most once and
    the cancellation is fired at most twice, once by each goroutine at
    most. *)
Theorem X19_shutdown_called_at_most_once (acts : list Action) :
  (count is_graceful (effects (run acts init)) ≤ 1)%nat
  ∧ (count is_cancel (effects (run acts init)) ≤ 2)%nat.
Proof.
  destruct (supervisor_inv_run acts) as [_ _ Hgr Hca].
  destruct (handler (run acts init)), (watcher (run acts init)); cbn in *; lia.
Qed.

(** X20. A lost connection cancels whatever the signals did before: after
    any run of signals and handler steps, an error on the close-notification
    channel makes the watcher log it and fire the cancellation, also when a
    graceful shutdown is already under way. *)
Theorem X20_connection_loss_overrides_graceful (acts : list Action) (err : Error) :
  forallb is_signal_action acts = true →
  effects (run (acts ++ [ConnNotifies (Received err)]) init)
    = effects (run acts init)
        ++ [Log ErrorLevel ["err"] "amqp connection errored, terminating"; Cancel]
  ∧ Cancel ∈ effects (run (acts ++ [ConnNotifies (Received err)]) init).
Proof.
  intros Hsig. pose proof (watcher_waits acts Hsig) as Hw.
  rewrite run_snoc. cbn. unfold watcher_step. rewrite Hw. cbn.
  split; [done |]. apply elem_of_app. right. right. left.
Qed.

Lemma X20_connection_loss_overrides_graceful_witness :
  effects (run ([OsSignal SIGINT; HandlerReceives]
                  ++ [ConnNotifies (Received "connection reset")]) init)
    = effects (run [OsSignal SIGINT; HandlerReceives] init)
        ++ [Log ErrorLevel ["err"] "amqp connection errored, terminating"; Cancel]
  ∧ Cancel ∈ effects (run ([OsSignal SIGINT; HandlerReceives]
                             ++ [ConnNotifies (Received "connection reset")]) init).
Proof.
  apply (X20_connection_loss_overrides_graceful
           [OsSignal SIGINT; HandlerReceives] "connection reset").
  reflexivity.
Defined.
